(** * r3f-peridot: vertex welding and surface identifiers

    A shallow embedding of [src/utils/VertexWelder.ts] and of the public
    contract of the surface segmenter ([FindSurfaces]), with the properties
    the specification states about them.

    Numbers are IEEE-754 binary64 values, as in JavaScript: the kernel's
    primitive floats.  JavaScript objects used as dictionaries are finite
    maps ([gmap]); the one place where key order is observable
    ([Object.keys] in [fillOutMergeMap]) enumerates the keys in the order
    ECMAScript prescribes for array indices. *)

From Stdlib Require Import ZArith Floats.
From stdpp Require Import base option list gmap sorting.

(** ** JavaScript values that occur as vertex indices

    The index buffer is a [number[]] of vertex indices (naturals).  Reading
    it past its end yields [undefined], which the welder then carries
    around like any other index; [Undef] stands for that value. *)

Inductive index : Set :=
  | Idx (n : nat)
  | Undef.

#[global] Instance index_eq_dec : EqDecision index.
Proof. solve_decision. Defined.

Definition index_to_option (i : index) : option nat :=
  match i with Idx n => Some n | Undef => None end.

Definition index_of_option (o : option nat) : index :=
  match o with Some n => Idx n | None => Undef end.

#[global] Instance index_countable : Countable index.
Proof.
  refine (inj_countable' index_to_option index_of_option _).
  intros []; reflexivity.
Defined.

(** [a == b] on two such values: numbers compare by value, [undefined] is
    loosely equal to itself only. *)
Definition loose_eq (a b : index) : bool :=
  match a, b with
  | Idx n, Idx m => Nat.eqb n m
  | Undef, Undef => true
  | _, _ => false
  end.

(** Truthiness of [vertexAliases[i]]: a missing entry and [undefined] are
    falsy, and so is the number 0. *)
Definition truthy (v : option index) : bool :=
  match v with
  | Some (Idx (S _)) => true
  | _ => false
  end.

(** [indices[i]]: the element, or [undefined] past the end. *)
Definition read_index (indices : list nat) (i : nat) : index :=
  index_of_option (indices !! i).

(** An edge is the two-element array [[a, b]]; a merge pair is the
    two-element array [[edge1, edge2]]. *)
Definition edge : Set := index * index.
Definition edge_pair : Set := edge * edge.

(** What a call does: return a value, or throw. *)
Inductive error : Set :=
  | TypeError.

Inductive outcome (A : Type) : Type :=
  | Returns (a : A)
  | Throws (e : error).
Arguments Returns {A} a.
Arguments Throws {A} e.

(** ** class Vector3 *)

Module Vector3.

Record t : Set := new { x : float; y : float; z : float }.

Definition clone (this : t) : t := new (x this) (y this) (z this).

Definition set (_ : t) (x y z : float) : t := new x y z.

Definition distanceTo (this v : t) : float :=
  let dx := (x this - x v)%float in
  let dy := (y this - y v)%float in
  let dz := (z this - z v)%float in
  PrimFloat.sqrt (dx * dx + dy * dy + dz * dz)%float.

Definition lengthSq (this : t) : float :=
  (x this * x this + y this * y this + z this * z this)%float.

Definition multiplyScalar (this : t) (scalar : float) : t :=
  new (x this * scalar)%float (y this * scalar)%float (z this * scalar)%float.

Definition subVectors (a b : t) : t :=
  new (x a - x b)%float (y a - y b)%float (z a - z b)%float.

Definition dot (this v : t) : float :=
  (x this * x v + y this * y v + z this * z v)%float.

Definition crossVectors (a b : t) : t :=
  new (y a * z b - z a * y b)%float
      (z a * x b - x a * z b)%float
      (x a * y b - y a * x b)%float.

Definition cross (this v : t) : t := crossVectors this v.

End Vector3.

(** The literal [0.1], as the nearest binary64 value. *)
Definition one_tenth : float := 0x1.999999999999ap-4%float.

(** [new Vector3(positionAttr[index * 3 + 0], ...)]: a coordinate that is
    [undefined] (index past the buffer, or an [undefined] index, for which
    [index * 3] is NaN) takes the constructor's default, 0. *)
Definition coordinate (positionAttr : list float) (i : index) (k : nat) : float :=
  match i with
  | Idx n => default 0%float (positionAttr !! (n * 3 + k))
  | Undef => 0%float
  end.

Definition getVertexFromIndexBuffer (i : index) (positionAttr : list float) : Vector3.t :=
  Vector3.new (coordinate positionAttr i 0)
              (coordinate positionAttr i 1)
              (coordinate positionAttr i 2).

(** ** Position hashes *)

(** The result of [Math.round], as its decimal string identifies it: an
    integer (both zeros print as "0"), "NaN", "Infinity" or "-Infinity". *)
Inductive rounded : Set :=
  | RInt (n : Z)
  | RNaN
  | RInfinity (negative : bool).

#[global] Instance rounded_eq_dec : EqDecision rounded.
Proof. solve_decision. Defined.

Definition rounded_encode (r : rounded) : Z + option bool :=
  match r with
  | RInt n => inl n
  | RNaN => inr None
  | RInfinity s => inr (Some s)
  end.

Definition rounded_decode (c : Z + option bool) : rounded :=
  match c with
  | inl n => RInt n
  | inr None => RNaN
  | inr (Some s) => RInfinity s
  end.

#[global] Instance rounded_countable : Countable rounded.
Proof.
  refine (inj_countable' rounded_encode rounded_decode _).
  intros []; reflexivity.
Defined.

(** [Math.round v] is the integer nearest to [v], ties going up:
    floor (v + 1/2), computed exactly on the value [m * 2^e] of [v]. *)
Definition Math_round (v : float) : rounded :=
  match Prim2SF v with
  | S754_zero _ => RInt 0
  | S754_infinity s => RInfinity s
  | S754_nan => RNaN
  | S754_finite s m e =>
      let n := if s then Z.neg m else Z.pos m in
      if (0 <=? e)%Z then RInt (n * 2 ^ e)
      else RInt ((2 * n + 2 ^ (- e)) / 2 ^ (- e + 1))
  end.

Definition precisionPoints : float := 4%float.
(** [Math.pow(10, precisionPoints)] *)
Definition precision : float := 10000%float.

(** The string [`${round x},${round y},${round z}`], kept as the triple it
    spells. *)
Definition hash : Set := rounded * rounded * rounded.

Definition hashVertex (v : Vector3.t) : hash :=
  (Math_round (Vector3.x v * precision)%float,
   Math_round (Vector3.y v * precision)%float,
   Math_round (Vector3.z v * precision)%float).

(** [getNormal(a, b, c, resultNormal)]; the scratch vectors [_v0] and
    [_normal] are overwritten before they are read, and the normal kept in
    the edge table is a clone, so plain values model them. *)
Definition getNormal (a b c : Vector3.t) : Vector3.t :=
  let resultNormal := Vector3.subVectors c b in
  let _v0 := Vector3.subVectors a b in
  let resultNormal := Vector3.cross resultNormal _v0 in
  let targetLengthSq := Vector3.lengthSq resultNormal in
  if (0 <? targetLengthSq)%float
  then Vector3.multiplyScalar resultNormal (1 / PrimFloat.sqrt targetLengthSq)%float
  else Vector3.set resultNormal 0%float 0%float 0%float.

Record EdgeData : Set := mkEdgeData {
  index0 : index;
  index1 : index;
  normal : Vector3.t
}.

(** ** Triangles of an index buffer

    [for (let i = 0; i < indices.length; i += 3)] reads [indices[i]],
    [indices[i + 1]] and [indices[i + 2]]; the last two can lie past the
    end. *)
Definition triangle : Set := index * index * index.

Fixpoint triangles (indices : list nat) : list triangle :=
  match indices with
  | [] => []
  | [a] => [(Idx a, Undef, Undef)]
  | [a; b] => [(Idx a, Idx b, Undef)]
  | a :: b :: c :: rest => (Idx a, Idx b, Idx c) :: triangles rest
  end.

Definition triangleAt (indices : list nat) (i : nat) : triangle :=
  (read_index indices i, read_index indices (i + 1), read_index indices (i + 2)).

(** ** Math.cos

    ECMAScript fixes [Math.cos] on NaN, the zeros and the infinities and
    leaves the rest "implementation-approximated": [cos_libm] is the
    platform's function on the remaining arguments. *)
Definition Math_PI : float := 0x1.921fb54442d18p+1%float.

Definition Math_cos (cos_libm : float -> float) (v : float) : float :=
  match PrimFloat.classify v with
  | NaN | PInf | NInf => PrimFloat.nan
  | PZero | NZero => 1%float
  | _ => cos_libm v
  end.

(** A concrete [cos_libm] to run examples with: the Taylor polynomial of
    degree 24, in Horner form.  The examples use only how a few of its
    values compare with 0 and with 1. *)
Definition cos_series (v : float) : float :=
  let u := (v * v)%float in
  (1 - u / 2 * (1 - u / 12 * (1 - u / 30 * (1 - u / 56 * (1 - u / 90 *
   (1 - u / 132 * (1 - u / 182 * (1 - u / 240 * (1 - u / 306 *
   (1 - u / 380 * (1 - u / 462 * (1 - u / 552))))))))))))%float.

(** ** computeEdgesToMerge (the Edge Matcher) *)

Abbreviation edge_table := (gmap (hash * hash) (option EdgeData)).

(** The state of the scan: [edgeData] and [edgesToMerge]. *)
Abbreviation matcher_state := (edge_table * list edge_pair)%type.

(** One pass of the loop over [j]: the edge from corner [j] to corner
    [jNext], with hashes [vecHash0], [vecHash1] and indices [i0], [i1]. *)
Definition matchEdge (thresholdDot : float) (_normal : Vector3.t)
    (st : matcher_state) (vecHash0 vecHash1 : hash) (i0 i1 : index) : matcher_state :=
  let '(edgeData, edgesToMerge) := st in
  let hash := (vecHash0, vecHash1) in
  let reverseHash := (vecHash1, vecHash0) in
  match edgeData !! reverseHash with
  | Some (Some sibling) =>
      let edgesToMerge :=
        if (thresholdDot <? Vector3.dot _normal (normal sibling))%float
        then edgesToMerge ++ [((index0 sibling, index1 sibling), (i0, i1))]
        else edgesToMerge in
      (<[reverseHash := None]> edgeData, edgesToMerge)
  | _ =>
      match edgeData !! hash with
      | None =>
          (<[hash := Some (mkEdgeData i0 i1 (Vector3.clone _normal))]> edgeData,
           edgesToMerge)
      | Some _ => (edgeData, edgesToMerge)
      end
  end.

Definition degenerate (vertices : list float) (tri : triangle) : bool :=
  let '(ia, ib, ic) := tri in
  let h0 := hashVertex (getVertexFromIndexBuffer ia vertices) in
  let h1 := hashVertex (getVertexFromIndexBuffer ib vertices) in
  let h2 := hashVertex (getVertexFromIndexBuffer ic vertices) in
  bool_decide (h0 = h1) || bool_decide (h1 = h2) || bool_decide (h2 = h0).

(** One pass of the loop over the triangles. *)
Definition matchTriangle (vertices : list float) (thresholdDot : float)
    (st : matcher_state) (tri : triangle) : matcher_state :=
  let '(ia, ib, ic) := tri in
  let a := getVertexFromIndexBuffer ia vertices in
  let b := getVertexFromIndexBuffer ib vertices in
  let c := getVertexFromIndexBuffer ic vertices in
  let _normal := getNormal a b c in
  let h0 := hashVertex a in
  let h1 := hashVertex b in
  let h2 := hashVertex c in
  if degenerate vertices tri then st
  else
    let st := matchEdge thresholdDot _normal st h0 h1 ia ib in
    let st := matchEdge thresholdDot _normal st h1 h2 ib ic in
    matchEdge thresholdDot _normal st h2 h0 ic ia.

Definition DEG2RAD : float := (Math_PI / 180)%float.

Definition thresholdDotOf (cos_libm : float -> float) (thresholdAngle : float) : float :=
  Math_cos cos_libm (DEG2RAD * thresholdAngle)%float.

Definition matchAll (vertices : list float) (thresholdDot : float)
    (tris : list triangle) (st : matcher_state) : matcher_state :=
  foldl (matchTriangle vertices thresholdDot) st tris.

Definition computeEdgesToMerge (cos_libm : float -> float)
    (vertices : list float) (indices : list nat) (thresholdAngle : float) : list edge_pair :=
  let thresholdDot := thresholdDotOf cos_libm thresholdAngle in
  snd (matchAll vertices thresholdDot (triangles indices) (∅, [])).

(** ** weldVertices (the Vertex Merge Resolver and the Index Rewriter) *)

(** The three dictionaries the main loop updates. *)
Record weld_state : Type := mkWeldState {
  mergedMap : gmap index (list index);
  vertexAliases : gmap index index;
  edgesToMergeMap : gmap edge edge_pair
}.

(** [merge(i1, i2)] *)
Definition merge (mergedMap : gmap index (list index)) (i1 i2 : index)
    : gmap index (list index) :=
  <[i1 := default [] (mergedMap !! i1) ++ [i2]]> mergedMap.

(** [aliasDeletedVertex(deletedVertex, remainingVertex)] *)
Definition aliasDeletedVertex (vertexAliases : gmap index index)
    (deletedVertex remainingVertex : index) : gmap index index :=
  if loose_eq deletedVertex remainingVertex then vertexAliases
  else <[deletedVertex := remainingVertex]> vertexAliases.

(** [if (vertexAliases[i]) i = vertexAliases[i]] *)
Definition replaceDeleted (vertexAliases : gmap index index) (i : index) : index :=
  if truthy (vertexAliases !! i) then default i (vertexAliases !! i) else i.

(** "Convert the array of edges to merge to a map": both edges of a pair
    are keys of the pair. *)
Definition edgesToMergeMapOf (edgesToMerge : list edge_pair) : gmap edge edge_pair :=
  foldl (λ m edgesList, <[edgesList.2 := edgesList]> (<[edgesList.1 := edgesList]> m))
        ∅ edgesToMerge.

(** The body of [for (const edge of edges)].  [edgeToMerge] is defined
    when the key or the reversed key is in the map, and the reversed key
    wins when both are: so the key to use is the reversed one when it is
    present and the edge's own otherwise, and the edge is skipped when that
    key is absent. *)
Definition mergeEdge (vertices : list float) (st : weld_state) (e : edge) : weld_state :=
  let '(index0, index1) := e in
  let edgeKey := (index0, index1) in
  let reverseEdgeKey := (index1, index0) in
  let isReverse := bool_decide (is_Some (edgesToMergeMap st !! reverseEdgeKey)) in
  let edgeKeyToUse := if isReverse then reverseEdgeKey else edgeKey in
  match edgesToMergeMap st !! edgeKeyToUse with
  | None => st
  | Some (possibleEdge1, possibleEdge2) =>
      let '(otherEdge, originalEdge) :=
        if (loose_eq possibleEdge1.1 index0 && loose_eq possibleEdge1.2 index1)
           || (loose_eq possibleEdge1.1 index1 && loose_eq possibleEdge1.2 index0)
        then (possibleEdge2, possibleEdge1)
        else (possibleEdge1, possibleEdge2) in
      let index2 := otherEdge.1 in
      let index3 := otherEdge.2 in
      let index0 := originalEdge.1 in
      let index1 := originalEdge.2 in
      if loose_eq index0 index2 && loose_eq index1 index3 then st
      else
        let v0 := getVertexFromIndexBuffer index0 vertices in
        let v2 := getVertexFromIndexBuffer index2 vertices in
        let '(index2, index3) :=
          if (one_tenth <? Vector3.distanceTo v0 v2)%float
          then (index3, index2) else (index2, index3) in
        let index0 := replaceDeleted (vertexAliases st) index0 in
        let index1 := replaceDeleted (vertexAliases st) index1 in
        let index2 := replaceDeleted (vertexAliases st) index2 in
        let index3 := replaceDeleted (vertexAliases st) index3 in
        let mergedEdgeKey := (index2, index3) in
        {| mergedMap := merge (merge (mergedMap st) index0 index2) index1 index3;
           vertexAliases :=
             aliasDeletedVertex (aliasDeletedVertex (vertexAliases st) index2 index0)
                                index3 index1;
           edgesToMergeMap := delete mergedEdgeKey (delete edgeKeyToUse (edgesToMergeMap st)) |}
  end.

(** "Go through all triangles", "Look at all 3 edges". *)
Definition triangleEdges (tri : triangle) : list edge :=
  let '(i1, i2, i3) := tri in [(i1, i2); (i1, i3); (i2, i3)].

Definition weldTriangle (vertices : list float) (st : weld_state) (tri : triangle)
    : weld_state :=
  foldl (mergeEdge vertices) st (triangleEdges tri).

Definition weldLoop (vertices : list float) (tris : list triangle) (st : weld_state)
    : weld_state :=
  foldl (weldTriangle vertices) st tris.

(** The state of [weldVertices] when the loop over the triangles ends. *)
Definition weldState (cos_libm : float -> float) (vertices : list float)
    (indices : list nat) (thresholdAngle : float) : weld_state :=
  let edgesToMerge := computeEdgesToMerge cos_libm vertices indices thresholdAngle in
  weldLoop vertices (triangles indices)
           (mkWeldState ∅ ∅ (edgesToMergeMapOf edgesToMerge)).

(** A property key is an array index when it spells an integer from 0 to
    2^32 - 2.  A vertex index that lies within a position buffer is one: a
    JavaScript array has fewer than 2^32 elements. *)
Definition array_index (n : nat) : Prop := (Z.of_nat n < 2 ^ 32 - 1)%Z.

Definition array_indexed {V} (o : gmap index V) : Prop :=
  ∀ n v, o !! Idx n = Some v → array_index n.

(** [Object.keys(o)] for a dictionary keyed by indices: the numeric keys
    in ascending order, then the key "undefined".  This is the order of
    ECMAScript for a dictionary that is [array_indexed].  (JavaScript lists
    a numeric key that is not an array index after the array indices, in
    the order in which the keys were created, which a finite map does not
    record: what is stated below about the order of the keys is stated of
    [array_indexed] dictionaries.) *)
Definition numericKeys {V} (o : gmap index V) : list nat :=
  omap (λ kv, index_to_option kv.1) (map_to_list o).

Definition Object_keys {V} (o : gmap index V) : list index :=
  (Idx <$> merge_sort (≤) (numericKeys o))
  ++ (if decide (is_Some (o !! Undef)) then [Undef] else []).

(** [for (const ind of indices) newMergeMap[ind] = key] *)
Definition assignKey (key : nat) (newMergeMap : gmap index nat) (indices : list index)
    : gmap index nat :=
  foldl (λ m ind, <[ind := key]> m) newMergeMap indices.

(** The loop of [fillOutMergeMap] over the keys.  [Number("undefined")] is
    NaN, [mergeMap[NaN]] is [undefined], and iterating over [undefined]
    throws a TypeError. *)
Fixpoint fillOutKeys (mergeMap : gmap index (list index)) (keys : list index)
    (newMergeMap : gmap index nat) : outcome (gmap index nat) :=
  match keys with
  | [] => Returns newMergeMap
  | Idx key :: keys =>
      fillOutKeys mergeMap keys
        (assignKey key newMergeMap (default [] (mergeMap !! Idx key)))
  | Undef :: _ => Throws TypeError
  end.

Definition fillOutMergeMap (mergeMap : gmap index (list index)) : outcome (gmap index nat) :=
  fillOutKeys mergeMap (Object_keys mergeMap) ∅.

(** The flattened alias table, [finalMergeMap]. *)
Definition finalMergeMap (cos_libm : float -> float) (vertices : list float)
    (indices : list nat) (thresholdAngle : float) : outcome (gmap index nat) :=
  fillOutMergeMap (mergedMap (weldState cos_libm vertices indices thresholdAngle)).

(** One index rewritten: [finalMergeMap[index]] when it is not
    [undefined], the index itself otherwise. *)
Definition newIndexOf (finalMergeMap : gmap index nat) (index : nat) : nat :=
  default index (finalMergeMap !! Idx index).

(** "Go through the original index buffer, replace indices with the merged
    indices": each new index is pushed onto [newIndexBuffer]. *)
Definition rewriteIndices (finalMergeMap : gmap index nat) (indices : list nat) : list nat :=
  foldl (λ newIndexBuffer index, newIndexBuffer ++ [newIndexOf finalMergeMap index])
        [] indices.

Definition weldVertices (cos_libm : float -> float) (vertices : list float)
    (indices : list nat) (thresholdAngle : float) : outcome (list nat) :=
  match finalMergeMap cos_libm vertices indices thresholdAngle with
  | Returns finalMergeMap => Returns (rewriteIndices finalMergeMap indices)
  | Throws e => Throws e
  end.

(** ** Vocabulary of the specification *)

(** The alias table is transitively closed: a representative is not itself
    sent to another index. *)
Definition transitively_closed (table : gmap index nat) : Prop :=
  ∀ a b, table !! a = Some b → table !! Idx b = None ∨ table !! Idx b = Some b.

(** A welded vertex pair: an entry of the alias table that sends a vertex
    to another one. *)
Definition weldedPairs (table : gmap index nat) : list (index * nat) :=
  filter (λ kv, kv.1 ≠ Idx kv.2) (map_to_list table).

Definition weldedVertexPairs (cos_libm : float -> float) (vertices : list float)
    (indices : list nat) (thresholdAngle : float) : outcome nat :=
  match finalMergeMap cos_libm vertices indices thresholdAngle with
  | Returns table => Returns (length (weldedPairs table))
  | Throws e => Throws e
  end.

(** A merge pair of an already welded edge: both triangles name the edge
    by the same two vertex indices, which lie farther apart than the 0.1
    tolerance of the orientation test. *)
Definition alreadyWelded (vertices : list float) (p : edge_pair) : bool :=
  match p with
  | ((Idx a, Idx b), (Idx b', Idx a')) =>
      Nat.eqb a a' && Nat.eqb b b'
      && (one_tenth <? Vector3.distanceTo (getVertexFromIndexBuffer (Idx a) vertices)
                                    (getVertexFromIndexBuffer (Idx b) vertices))%float
  | _ => false
  end.

(** ** Invariants of the two scans

    Each states that a property [P] of indices holds of every index a data
    structure of the welder mentions. *)

Definition corners (P : index → Prop) (tri : triangle) : Prop :=
  P tri.1.1 ∧ P tri.1.2 ∧ P tri.2.

Definition edge_ok (P : index → Prop) (e : edge) : Prop := P e.1 ∧ P e.2.

Definition pair_ok (P : index → Prop) (p : edge_pair) : Prop :=
  edge_ok P p.1 ∧ edge_ok P p.2.

Definition table_ok (P : index → Prop) (edgeData : edge_table) : Prop :=
  ∀ k d, edgeData !! k = Some (Some d) → P (index0 d) ∧ P (index1 d).

Definition matcher_ok (P : index → Prop) (st : matcher_state) : Prop :=
  table_ok P st.1 ∧ Forall (pair_ok P) st.2.

Definition weld_ok (P : index → Prop) (st : weld_state) : Prop :=
  (∀ k l, mergedMap st !! k = Some l → P k ∧ Forall P l)
  ∧ (∀ k v, vertexAliases st !! k = Some v → P v)
  ∧ (∀ k p, edgesToMergeMap st !! k = Some p → pair_ok P p).

(** The state of the main loop on a buffer whose selected edges are all
    already welded: only self-merges are recorded and nothing is aliased. *)
Definition welded_ok (vertices : list float) (st : weld_state) : Prop :=
  (∀ k l, mergedMap st !! k = Some l → (∃ n, k = Idx n) ∧ Forall (λ i, i = k) l)
  ∧ vertexAliases st = ∅
  ∧ (∀ k p, edgesToMergeMap st !! k = Some p →
       alreadyWelded vertices p = true ∧ (k = p.1 ∨ k = p.2)).

(** ** Further vocabulary

    Notions the properties of the welder beyond the specification's claims
    are stated with. *)

(** The position buffer of a list of vertices: "Array of (x,y,z) positions
    as a flat list". *)
Definition positionBuffer (positions : list Vector3.t) : list float :=
  positions ≫= λ v, [Vector3.x v; Vector3.y v; Vector3.z v].

(** The position hash of the vertex an index names. *)
Definition hashOf (vertices : list float) (i : index) : hash :=
  hashVertex (getVertexFromIndexBuffer i vertices).

(** The directed sides of a triangle, as the Edge Matcher walks them: from
    corner [j] to corner [(j + 1) % 3]. *)
Definition sides (tri : triangle) : list edge :=
  let '(a, b, c) := tri in [(a, b); (b, c); (c, a)].

(** The two edges of a pair lie on the same two positions, in opposite
    directions, and these positions differ. *)
Definition coincident (vertices : list float) (p : edge_pair) : Prop :=
  hashOf vertices p.1.1 = hashOf vertices p.2.2
  ∧ hashOf vertices p.1.2 = hashOf vertices p.2.1
  ∧ hashOf vertices p.1.1 ≠ hashOf vertices p.1.2.

(** The first edge of a pair is a side of a triangle of the list and the
    second a side of a later one. *)
Definition joins (tris : list triangle) (p : edge_pair) : Prop :=
  ∃ k1 k2 t1 t2,
    k1 < k2 ∧ tris !! k1 = Some t1 ∧ tris !! k2 = Some t2
    ∧ p.1 ∈ sides t1 ∧ p.2 ∈ sides t2.

(** The indices a pair mentions. *)
Definition endpoints (p : edge_pair) : list index := [p.1.1; p.1.2; p.2.1; p.2.2].

(** The key of [edgeData] under which the first edge of a pair was stored:
    the hashes of its two positions, in its direction. *)
Definition pairKey (vertices : list float) (p : edge_pair) : hash * hash :=
  (hashOf vertices p.1.1, hashOf vertices p.1.2).

(** The entries of [edgeData] that are not yet consumed ([null]). *)
Definition liveEdges (edgeData : edge_table) : nat :=
  size (filter (λ kv : hash * hash * option EdgeData, is_Some kv.2) edgeData).

(** Invariants of the Edge Matcher, relative to the triangles scanned so
    far ([scanned]) and, inside a triangle, to that triangle. *)
Definition stored_ok (vertices : list float) (scanned : list triangle)
    (current : option triangle) (edgeData : edge_table) : Prop :=
  ∀ key d, edgeData !! key = Some (Some d) →
    key = (hashOf vertices (index0 d), hashOf vertices (index1 d))
    ∧ ((∃ k t, scanned !! k = Some t ∧ (index0 d, index1 d) ∈ sides t)
       ∨ (∃ t, current = Some t ∧ (index0 d, index1 d) ∈ sides t)).

Definition scan_ok (vertices : list float) (scanned : list triangle)
    (current : option triangle) (st : matcher_state) : Prop :=
  stored_ok vertices scanned current st.1
  ∧ Forall (λ p, coincident vertices p
                 ∧ joins (scanned ++ option_list current) p) st.2.

(** The unit normal of a triangle's face, as [getNormal] computes it from
    the positions of the three corners. *)
Definition faceNormal (vertices : list float) (tri : triangle) : Vector3.t :=
  getNormal (getVertexFromIndexBuffer tri.1.1 vertices)
            (getVertexFromIndexBuffer tri.1.2 vertices)
            (getVertexFromIndexBuffer tri.2 vertices).

(** One pass of the loop over [j], at the side [e] of the triangle [tri]. *)
Definition matchSide (vertices : list float) (thresholdDot : float) (tri : triangle)
    (st : matcher_state) (e : edge) : matcher_state :=
  matchEdge thresholdDot (faceNormal vertices tri) st
            (hashOf vertices e.1) (hashOf vertices e.2) e.1 e.2.

(** Every stored edge carries the face normal of the triangle it is a side
    of. *)
Definition normal_ok (vertices : list float) (scanned : list triangle)
    (current : option triangle) (edgeData : edge_table) : Prop :=
  ∀ key d, edgeData !! key = Some (Some d) →
    ∃ t, (t ∈ scanned ∨ current = Some t)
         ∧ (index0 d, index1 d) ∈ sides t
         ∧ normal d = faceNormal vertices t.

(** The pairs selected so far are those whose key is consumed. *)
Definition consumed_ok (vertices : list float) (st : matcher_state) : Prop :=
  NoDup (pairKey vertices <$> st.2)
  ∧ (∀ p, p ∈ st.2 → st.1 !! pairKey vertices p = Some None).

(** ** The traversal of OutlineEffect

    [components/OutlineEffect.tsx], the effect that computes the surface
    identifiers: one [FindSurfaces] instance is applied to every mesh of
    the scene, a failing call is caught and skipped, [maxSurfaceId] keeps
    the greatest value of the counter seen after a successful call, and the
    pass is told [maxSurfaceId + 1] when that is positive.  The segmenter
    is a parameter: [getSurfaceIdAttribute] maps its state and a mesh to
    the attribute (or the exception) and the state it leaves. *)
Section Traversal.

Context {Segmenter Mesh Attribute : Type}.
Variable getSurfaceIdAttribute : Segmenter → Mesh → outcome Attribute * Segmenter.
Variable surfaceId : Segmenter → nat.

(** What the traversal has done so far: the segmenter, [maxSurfaceId], and
    the [color] attribute set on each object visited ([None] when none
    was set). *)
Record traversal : Type := mkTraversal {
  findSurfaces : Segmenter;
  maxSurfaceId : nat;
  colorAttributes : list (option Attribute)
}.

(** The callback of [scene.traverse]; an object that is not a mesh with a
    geometry is [None]. *)
Definition visitObject (tr : traversal) (object : option Mesh) : traversal :=
  match object with
  | None => mkTraversal (findSurfaces tr) (maxSurfaceId tr) (colorAttributes tr ++ [None])
  | Some mesh =>
      match getSurfaceIdAttribute (findSurfaces tr) mesh with
      | (Returns surfaceIdAttribute, findSurfaces') =>
          mkTraversal findSurfaces'
                      (Nat.max (maxSurfaceId tr) (surfaceId findSurfaces'))
                      (colorAttributes tr ++ [Some surfaceIdAttribute])
      | (Throws _, findSurfaces') =>
          mkTraversal findSurfaces' (maxSurfaceId tr) (colorAttributes tr ++ [None])
      end
  end.

Definition traverseScene (fresh : Segmenter) (objects : list (option Mesh)) : traversal :=
  foldl visitObject (mkTraversal fresh 0 []) objects.

(** The traversal of the hook [useSurfaceIds] ([utils/useSurfaceIds]):
    the same callback without [try]/[catch], so that the first failing
    call ends the traversal with its exception; what was set before
    stays set. *)
Fixpoint traverseSceneFrom (tr : traversal) (objects : list (option Mesh))
    : outcome unit * traversal :=
  match objects with
  | [] => (Returns (), tr)
  | None :: objects =>
      traverseSceneFrom
        (mkTraversal (findSurfaces tr) (maxSurfaceId tr) (colorAttributes tr ++ [None]))
        objects
  | Some mesh :: objects =>
      match getSurfaceIdAttribute (findSurfaces tr) mesh with
      | (Returns surfaceIdAttribute, findSurfaces') =>
          traverseSceneFrom
            (mkTraversal findSurfaces'
                         (Nat.max (maxSurfaceId tr) (surfaceId findSurfaces'))
                         (colorAttributes tr ++ [Some surfaceIdAttribute]))
            objects
      | (Throws e, findSurfaces') =>
          (Throws e, mkTraversal findSurfaces' (maxSurfaceId tr) (colorAttributes tr))
      end
  end.

Definition useSurfaceIds (fresh : Segmenter) (objects : list (option Mesh))
    : outcome unit * traversal :=
  traverseSceneFrom (mkTraversal fresh 0 []) objects.

(** [if (outlinePassRef.current && maxSurfaceId > 0)
       outlinePassRef.current.updateMaxSurfaceId(maxSurfaceId + 1)]:
    the value the pass is given, if any. *)
Definition updatedMaxSurfaceId (passReady : bool) (tr : traversal) : option nat :=
  if passReady && (0 <? maxSurfaceId tr) then Some (maxSurfaceId tr + 1) else None.

End Traversal.

(** ** Meshes of the concrete scenarios *)

(** Scenario A: two coplanar unit right triangles; vertex 3 lies on
    vertex 1 and vertex 5 on vertex 2. *)
Definition scenarioA_vertices : list float :=
  [0; 0; 0;   1; 0; 0;   0; 1; 0;   1; 0; 0;   1; 1; 0;   0; 1; 0]%float.

Definition scenarioA_indices : list nat := [0; 1; 2; 3; 4; 5].

(** Three coplanar triangles around the point (1, 2, 0), each with its own
    copy of it (vertices 2, 5 and 6). *)
Definition fan_vertices : list float :=
  [0; 2; 0;   1; 1; 0;   1; 2; 0;   2; 2; 0;   2; 1; 0;
   1; 2; 0;   1; 2; 0;   2; 1; 0;   1; 1; 0]%float.

Definition fan_indices : list nat := [1; 0; 2; 3; 4; 5; 6; 7; 8].

(** Two coplanar triangles with the duplicated vertex pair (1, 4), and a
    third one folded by 90 degrees along the edge 3-4, which it shares by
    index. *)
Definition fold_vertices : list float :=
  [1; 1; 0;   0; 1; 0;   0; 0; 1;   0; 0; 0;   0; 1; 0;   1; 0; 0]%float.

Definition fold_indices : list nat := [3; 4; 2; 0; 1; 5; 3; 5; 4].

(** Two coplanar triangles sharing the edge from (0,0,0) to (2,1,0); the
    second has its own copies 4 and 3 of the vertices 0 and 1. *)
Definition origin_vertices : list float :=
  [0; 0; 0;   2; 1; 0;   1; 2; 0;   2; 1; 0;   0; 0; 0;   1; 0; 0]%float.

Definition origin_indices : list nat := [0; 1; 2; 3; 4; 5].

(** A triangle and two more indices: the index buffer stops in the middle
    of the second triangle. *)
Definition partial_vertices : list float :=
  [0; 0; 0;   1; 0; 0;   0; 1; 0;   0; 1; 0;   -1; 0; 0]%float.

Definition partial_indices : list nat := [0; 1; 2; 3; 4].

(** Scenario A at one sixteenth of its size: the shared edge is shorter
    than the 0.1 of the orientation test. *)
Definition sixteenth_vertices : list float :=
  [0; 0; 0;   0.0625; 0; 0;   0; 0.0625; 0;
   0.0625; 0; 0;   0.0625; 0.0625; 0;   0; 0.0625; 0]%float.

(** A segmenter to run the traversal of [OutlineEffect] with: its state is
    the counter, a mesh is the number of surfaces it has, a call labels
    them with the next values of the counter, and a mesh without any makes
    the call throw. *)
Definition countingSegmenter (counter mesh : nat) : outcome (list nat) * nat :=
  if mesh =? 0 then (Throws TypeError, counter)
  else (Returns (seq counter mesh), counter + mesh).

(** ** FindSurfaces *)

Module FindSurfaces.

(** Modelled from the spec: the source of the [FindSurfaces] class is
    missing (only its test and its caller are present).  The model
    follows sections 3 and 4.4: a segmenter owns a counter [surfaceId]
    that persists across calls; a call floods the triangles of the mesh
    through smooth adjacency, labels each surface it discovers with the
    current value of the counter and then increments the counter.  The
    classification of shared edges as smooth is an external contract, so
    a mesh carries it as a relation on triangle numbers. *)
Record mesh : Type := mkMesh {
  meshTriangles : list (nat * nat * nat);
  smooth : nat -> nat -> bool
}.

Record segmenter : Set := mkSegmenter { surfaceId : nat }.

Definition numTriangles (m : mesh) : nat := length (meshTriangles m).

Definition neighbours (m : mesh) (t : nat) : list nat :=
  filter (λ s, smooth m t s = true) (seq 0 (numTriangles m)).

(** Modelled from the spec: "traverse through smooth-classified adjacent
    triangles, labeling every visited triangle".  [fuel] bounds the number
    of steps; each step either drops a labelled triangle from the frontier
    or labels a new one and adds its neighbours. *)
Fixpoint flood (m : mesh) (id fuel : nat) (frontier : list nat)
    (labels : gmap nat nat) : gmap nat nat :=
  match fuel with
  | 0 => labels
  | S fuel =>
      match frontier with
      | [] => labels
      | t :: frontier =>
          match labels !! t with
          | Some _ => flood m id fuel frontier labels
          | None => flood m id fuel (neighbours m t ++ frontier) (<[t := id]> labels)
          end
      end
  end.

(** Modelled from the spec: "visit unvisited triangles, and from each,
    traverse ..., before advancing to a new unvisited triangle and
    incrementing the identifier". *)
Definition visit (m : mesh) (st : nat * gmap nat nat) (t : nat) : nat * gmap nat nat :=
  match st.2 !! t with
  | Some _ => st
  | None =>
      (S st.1, flood m st.1 (S (numTriangles m * S (numTriangles m))) [t] st.2)
  end.

Definition labelTriangles (m : mesh) (surfaceId : nat) : nat * gmap nat nat :=
  foldl (visit m) (surfaceId, ∅) (seq 0 (numTriangles m)).

(** Modelled from the spec: "labeling every visited triangle's vertices
    with the current identifier": the identifier of each vertex. *)
Definition labelVertices (m : mesh) (labels : gmap nat nat) : gmap nat nat :=
  foldl (λ (ids : gmap nat nat) (kt : nat * (nat * nat * nat)),
           match labels !! kt.1 with
           | Some id =>
               let '(a, b, c) := kt.2 in <[c := id]> (<[b := id]> (<[a := id]> ids))
           | None => ids
           end)
        ∅ (imap (λ k t, (k, t)) (meshTriangles m)).

(** Modelled from the spec: [getSurfaceIdAttribute(mesh)] returns the
    per-vertex identifiers and leaves the counter advanced.  (The packing
    of each identifier into four float components is the renderer's
    layout and is left out.) *)
Definition getSurfaceIdAttribute (s : segmenter) (m : mesh) : gmap nat nat * segmenter :=
  let '(next, labels) := labelTriangles m (surfaceId s) in
  (labelVertices m labels, mkSegmenter next).









End FindSurfaces.

(** * Properties *)

(** ** Order of binary64 values

    [<?], [<=?] and [=?] on floats are specified by [SFcompare] on the
    decoded values; what the welder needs of them follows from there. *)

Section FloatOrder.

Local Ltac split_compare :=
  repeat match goal with
    | H : context [Pos.compare_cont Eq ?p ?q] |- _ =>
        change (Pos.compare_cont Eq p q) with (Pos.compare p q) in H
    | |- context [Pos.compare_cont Eq ?p ?q] =>
        change (Pos.compare_cont Eq p q) with (Pos.compare p q)
    end;
  repeat match goal with
    | H : context [(?a ?= ?b)%Z] |- _ => destruct (Z.compare_spec a b)
    | |- context [(?a ?= ?b)%Z] => destruct (Z.compare_spec a b)
    | H : context [(?p ?= ?q)%positive] |- _ => destruct (Pos.compare_spec p q)
    | |- context [(?p ?= ?q)%positive] => destruct (Pos.compare_spec p q)
    end.

Lemma SFleb_SFltb_trans (b a d : spec_float) :
  SFleb b a = true → SFltb a d = true → SFltb b d = true.
Proof.
  unfold SFleb, SFltb, SFcompare.
  destruct b as [sb|sb| |sb mb eb], a as [sa|sa| |sa ma ea], d as [sd|sd| |sd md ed];
    repeat match goal with s : bool |- _ => destruct s end;
    simpl; try (intros; discriminate); try (intros; reflexivity);
    split_compare; simpl; intros; subst;
    try discriminate; try reflexivity; lia.
Qed.

Lemma SFeqb_not_SFltb (d t : spec_float) :
  SFeqb d t = true → SFltb t d = false.
Proof.
  unfold SFeqb, SFltb, SFcompare.
  destruct d as [sd|sd| |sd md ed], t as [st|st| |st mt et];
    repeat match goal with s : bool |- _ => destruct s end;
    simpl; try (intros; discriminate); try (intros; reflexivity);
    split_compare; simpl; intros; subst;
    try discriminate; try reflexivity; lia.
Qed.

Lemma float_leb_ltb_trans (b a d : float) :
  (b <=? a)%float = true → (a <? d)%float = true → (b <? d)%float = true.
Proof.
  rewrite FloatAxioms.leb_spec, !FloatAxioms.ltb_spec. apply SFleb_SFltb_trans.
Qed.

Lemma float_eqb_not_ltb (d t : float) :
  (d =? t)%float = true → (t <? d)%float = false.
Proof.
  rewrite FloatAxioms.eqb_spec, FloatAxioms.ltb_spec. apply SFeqb_not_SFltb.
Qed.

End FloatOrder.

(** ** Triangles of the index buffer *)

Lemma by_threes (P : list nat → Prop) :
  P [] → (∀ a, P [a]) → (∀ a b, P [a; b]) →
  (∀ a b c rest, P rest → P (a :: b :: c :: rest)) →
  ∀ l, P l.
Proof.
  intros H0 H1 H2 H3 l.
  assert (∀ n l, length l ≤ n → P l) as Hall; [|by apply (Hall (length l))].
  clear l. intros n. induction n as [|n IH]; intros l Hl.
  - destruct l; [done|simpl in Hl; lia].
  - destruct l as [|a [|b [|c rest]]]; auto.
    apply H3, IH. simpl in Hl. lia.
Qed.

(** The chunks are what the loop reads: triangle number [k] is
    [indices[3k]], [indices[3k + 1]], [indices[3k + 2]], for [3k] below the
    length. *)
Lemma triangles_lookup (indices : list nat) (k : nat) :
  triangles indices !! k =
    if decide (3 * k < length indices) then Some (triangleAt indices (3 * k)) else None.
Proof.
  revert k. induction indices as [|a|a b|a b c rest IH] using by_threes; intros k.
  - destruct (decide _) as [Hk|Hk]; [simpl in Hk; lia|done].
  - destruct k as [|k]; [done|].
    destruct (decide _) as [Hk|Hk]; [simpl in Hk; lia|done].
  - destruct k as [|k]; [done|].
    destruct (decide _) as [Hk|Hk]; [simpl in Hk; lia|done].
  - destruct k as [|k]; [done|].
    change (triangles (a :: b :: c :: rest) !! S k) with (triangles rest !! k).
    rewrite IH.
    replace (3 * S k) with (S (S (S (3 * k)))) by lia.
    destruct (decide (3 * k < length rest)) as [Hk|Hk];
      destruct (decide _) as [Hk'|Hk']; simpl in Hk'; try lia; done.
Qed.

Lemma triangles_length (indices : list nat) :
  length (triangles indices) = (length indices + 2) `div` 3.
Proof.
  induction indices as [|a|a b|a b c rest IH] using by_threes; try done.
  simpl triangles. simpl length. rewrite IH.
  replace (S (S (S (length rest))) + 2) with (length rest + 2 + 1 * 3) by lia.
  rewrite Nat.div_add by lia. lia.
Qed.

Lemma triangles_app (pre post : list nat) :
  length pre `mod` 3 = 0 →
  triangles (pre ++ post) = triangles pre ++ triangles post.
Proof.
  induction pre as [|a|a b|a b c rest IH] using by_threes; simpl length; intros Hlen.
  - done.
  - by vm_compute in Hlen.
  - by vm_compute in Hlen.
  - change (triangles ((a :: b :: c :: rest) ++ post))
      with ((Idx a, Idx b, Idx c) :: triangles (rest ++ post)).
    rewrite IH; [done|].
    replace (S (S (S (length rest)))) with (length rest + 1 * 3) in Hlen by lia.
    by rewrite Nat.Div0.mod_add in Hlen.
Qed.

(** Every number in a triangle is an element of the buffer. *)
Lemma triangles_from_buffer (indices : list nat) :
  Forall (corners (λ i, ∀ n, i = Idx n → n ∈ indices)) (triangles indices).
Proof.
  induction indices as [|a|a b|a b c rest IH] using by_threes; simpl triangles.
  - constructor.
  - constructor; [|constructor].
    repeat split; simpl; intros n [=]; subst; set_solver.
  - constructor; [|constructor].
    repeat split; simpl; intros n [=]; subst; set_solver.
  - constructor.
    + repeat split; simpl; intros n [=]; subst; set_solver.
    + eapply Forall_impl; [exact IH|].
      intros [[i j] k] (Hi & Hj & Hk). repeat split; simpl in *; intros n Hn.
      * specialize (Hi n Hn). set_solver.
      * specialize (Hj n Hn). set_solver.
      * specialize (Hk n Hn). set_solver.
Qed.

(** When the length is a multiple of 3 no corner is [undefined]. *)
Lemma triangles_defined (indices : list nat) :
  length indices `mod` 3 = 0 →
  Forall (corners (λ i, ∃ n, i = Idx n)) (triangles indices).
Proof.
  induction indices as [|a|a b|a b c rest IH] using by_threes; simpl length; intros Hlen.
  - constructor.
  - by vm_compute in Hlen.
  - by vm_compute in Hlen.
  - simpl triangles. constructor.
    + repeat split; simpl; eauto.
    + apply IH.
      replace (S (S (S (length rest)))) with (length rest + 1 * 3) in Hlen by lia.
      by rewrite Nat.Div0.mod_add in Hlen.
Qed.

(** ** The Edge Matcher *)

#[local] Arguments matchEdge : simpl never.
#[local] Arguments matchTriangle : simpl never.

Lemma matchEdge_ok (P : index → Prop) (thresholdDot : float) (_normal : Vector3.t)
    (st : matcher_state) (vecHash0 vecHash1 : hash) (i0 i1 : index) :
  P i0 → P i1 → matcher_ok P st →
  matcher_ok P (matchEdge thresholdDot _normal st vecHash0 vecHash1 i0 i1).
Proof.
  intros Hi0 Hi1. destruct st as [edgeData edgesToMerge]. intros [Htable Hpairs].
  simpl in Htable, Hpairs. unfold matchEdge.
  destruct (edgeData !! (vecHash1, vecHash0)) as [[sibling|]|] eqn:Hreverse.
  - split; simpl.
    + intros k d. rewrite lookup_insert. case_decide; [done|]. apply Htable.
    + destruct (_ <? _)%float; [|done].
      apply Forall_app. split; [done|]. constructor; [|constructor].
      split; split; simpl; try done; by apply (Htable _ _ Hreverse).
  - destruct (edgeData !! (vecHash0, vecHash1)); split; simpl; try done.
    intros k d. rewrite lookup_insert. case_decide; [|apply Htable].
    intros [= <-]. done.
  - destruct (edgeData !! (vecHash0, vecHash1)); split; simpl; try done.
    intros k d. rewrite lookup_insert. case_decide; [|apply Htable].
    intros [= <-]. done.
Qed.

Lemma matchTriangle_ok (P : index → Prop) (vertices : list float) (thresholdDot : float)
    (st : matcher_state) (tri : triangle) :
  corners P tri → matcher_ok P st →
  matcher_ok P (matchTriangle vertices thresholdDot st tri).
Proof.
  destruct tri as [[ia ib] ic]. intros (Ha & Hb & Hc) Hst. simpl in Ha, Hb, Hc.
  unfold matchTriangle. destruct (degenerate _ _); [done|].
  by repeat apply matchEdge_ok.
Qed.

Lemma matchAll_ok (P : index → Prop) (vertices : list float) (thresholdDot : float)
    (tris : list triangle) (st : matcher_state) :
  Forall (corners P) tris → matcher_ok P st →
  matcher_ok P (matchAll vertices thresholdDot tris st).
Proof.
  unfold matchAll. intros Htris. revert st.
  induction Htris as [|tri tris Htri _ IH]; intros st Hst; [done|].
  simpl. by apply IH, matchTriangle_ok.
Qed.

Lemma computeEdgesToMerge_ok (P : index → Prop) (cos_libm : float → float)
    (vertices : list float) (indices : list nat) (thresholdAngle : float) :
  Forall (corners P) (triangles indices) →
  Forall (pair_ok P) (computeEdgesToMerge cos_libm vertices indices thresholdAngle).
Proof.
  intros Htris. unfold computeEdgesToMerge.
  apply (matchAll_ok P); [done|]. split; [|constructor].
  intros k d. simpl. by rewrite lookup_empty.
Qed.

(** A degenerate triangle leaves the scan as it found it. *)
Lemma matchTriangle_degenerate (vertices : list float) (thresholdDot : float)
    (st : matcher_state) (tri : triangle) :
  degenerate vertices tri = true →
  matchTriangle vertices thresholdDot st tri = st.
Proof.
  intros Hdegenerate. destruct tri as [[ia ib] ic].
  unfold matchTriangle. by rewrite Hdegenerate.
Qed.

Lemma matchAll_app (vertices : list float) (thresholdDot : float)
    (tris1 tris2 : list triangle) (st : matcher_state) :
  matchAll vertices thresholdDot (tris1 ++ tris2) st =
    matchAll vertices thresholdDot tris2 (matchAll vertices thresholdDot tris1 st).
Proof. unfold matchAll. apply foldl_app. Qed.

(** A lower threshold dot selects more: with the same edge table, the
    pairs selected under [td1] are among those selected under [td2]. *)
Lemma matchEdge_mono (td1 td2 : float) (_normal : Vector3.t) (edgeData : edge_table)
    (l1 l2 : list edge_pair) (vecHash0 vecHash1 : hash) (i0 i1 : index) :
  (td2 <=? td1)%float = true → l1 `sublist_of` l2 →
  (matchEdge td1 _normal (edgeData, l1) vecHash0 vecHash1 i0 i1).1
    = (matchEdge td2 _normal (edgeData, l2) vecHash0 vecHash1 i0 i1).1
  ∧ (matchEdge td1 _normal (edgeData, l1) vecHash0 vecHash1 i0 i1).2
    `sublist_of` (matchEdge td2 _normal (edgeData, l2) vecHash0 vecHash1 i0 i1).2.
Proof.
  intros Hle Hsub. unfold matchEdge.
  destruct (edgeData !! (vecHash1, vecHash0)) as [[sibling|]|].
  - split; [done|]. simpl.
    destruct (td1 <? _)%float eqn:H1.
    + rewrite (float_leb_ltb_trans _ _ _ Hle H1). by apply sublist_app.
    + destruct (td2 <? _)%float; [|done]. by apply sublist_inserts_r.
  - by destruct (edgeData !! (vecHash0, vecHash1)).
  - by destruct (edgeData !! (vecHash0, vecHash1)).
Qed.

Lemma matchTriangle_mono (vertices : list float) (td1 td2 : float)
    (st1 st2 : matcher_state) (tri : triangle) :
  (td2 <=? td1)%float = true → st1.1 = st2.1 → st1.2 `sublist_of` st2.2 →
  (matchTriangle vertices td1 st1 tri).1 = (matchTriangle vertices td2 st2 tri).1
  ∧ (matchTriangle vertices td1 st1 tri).2
    `sublist_of` (matchTriangle vertices td2 st2 tri).2.
Proof.
  intros Hle. destruct st1 as [edgeData l1], st2 as [edgeData2 l2]. simpl.
  intros <- Hsub. destruct tri as [[ia ib] ic].
  unfold matchTriangle. destruct (degenerate _ _); [done|].
  set (n := getNormal _ _ _).
  set (h0 := hashVertex (getVertexFromIndexBuffer ia vertices)).
  set (h1 := hashVertex (getVertexFromIndexBuffer ib vertices)).
  set (h2 := hashVertex (getVertexFromIndexBuffer ic vertices)).
  destruct (matchEdge_mono td1 td2 n edgeData l1 l2 h0 h1 ia ib Hle Hsub) as [Ht1 Hs1].
  destruct (matchEdge td1 n (edgeData, l1) h0 h1 ia ib) as [e1 m1].
  destruct (matchEdge td2 n (edgeData, l2) h0 h1 ia ib) as [e1' m1'].
  simpl in Ht1, Hs1. subst e1'.
  destruct (matchEdge_mono td1 td2 n e1 m1 m1' h1 h2 ib ic Hle Hs1) as [Ht2 Hs2].
  destruct (matchEdge td1 n (e1, m1) h1 h2 ib ic) as [e2 m2].
  destruct (matchEdge td2 n (e1, m1') h1 h2 ib ic) as [e2' m2'].
  simpl in Ht2, Hs2. subst e2'.
  by apply matchEdge_mono.
Qed.

Lemma matchAll_mono (vertices : list float) (td1 td2 : float) (tris : list triangle)
    (st1 st2 : matcher_state) :
  (td2 <=? td1)%float = true → st1.1 = st2.1 → st1.2 `sublist_of` st2.2 →
  (matchAll vertices td1 tris st1).2 `sublist_of` (matchAll vertices td2 tris st2).2.
Proof.
  intros Hle. unfold matchAll. revert st1 st2.
  induction tris as [|tri tris IH]; intros st1 st2 Htable Hsub; [done|].
  simpl. destruct (matchTriangle_mono vertices td1 td2 st1 st2 tri Hle Htable Hsub).
  by apply IH.
Qed.

(** ** The Vertex Merge Resolver *)

#[local] Arguments mergeEdge : simpl never.
#[local] Arguments weldTriangle : simpl never.

Lemma loose_eq_true (a b : index) : loose_eq a b = true ↔ a = b.
Proof.
  destruct a as [n|], b as [m|]; simpl; try (split; [discriminate|done]); [|done].
  rewrite Nat.eqb_eq. split; [by intros ->|by intros [=]].
Qed.

Lemma loose_eq_refl (a : index) : loose_eq a a = true.
Proof. by apply loose_eq_true. Qed.

Lemma replaceDeleted_ok (P : index → Prop) (aliases : gmap index index) (i : index) :
  (∀ k v, aliases !! k = Some v → P v) → P i → P (replaceDeleted aliases i).
Proof.
  intros Haliases Hi. unfold replaceDeleted.
  destruct (aliases !! i) as [v|] eqn:Hv; [|done].
  destruct (truthy (Some v)); [exact (Haliases _ _ Hv)|done].
Qed.

Lemma replaceDeleted_empty (i : index) : replaceDeleted ∅ i = i.
Proof. unfold replaceDeleted. by rewrite lookup_empty. Qed.

Lemma merge_ok (P : index → Prop) (m : gmap index (list index)) (i1 i2 : index) :
  (∀ k l, m !! k = Some l → P k ∧ Forall P l) → P i1 → P i2 →
  ∀ k l, merge m i1 i2 !! k = Some l → P k ∧ Forall P l.
Proof.
  intros Hm H1 H2 k l. unfold merge. rewrite lookup_insert.
  case_decide as Hk; [|apply Hm]. subst k. intros [= <-]. split; [done|].
  apply Forall_app. split; [|by repeat constructor].
  destruct (m !! i1) as [l1|] eqn:Hl1; simpl; [|constructor]. by apply (Hm _ _ Hl1).
Qed.

Lemma aliasDeletedVertex_ok (P : index → Prop) (aliases : gmap index index)
    (deleted remaining : index) :
  (∀ k v, aliases !! k = Some v → P v) → P remaining →
  ∀ k v, aliasDeletedVertex aliases deleted remaining !! k = Some v → P v.
Proof.
  intros Haliases Hremaining k v. unfold aliasDeletedVertex.
  destruct (loose_eq _ _); [apply Haliases|].
  rewrite lookup_insert. case_decide; [by intros [= <-]|apply Haliases].
Qed.

Lemma mergeEdge_ok (P : index → Prop) (vertices : list float) (st : weld_state) (e : edge) :
  weld_ok P st → weld_ok P (mergeEdge vertices st e).
Proof.
  intros (Hmerged & Haliases & Hedges). destruct e as [i0 i1]. unfold mergeEdge.
  set (edgeKeyToUse := if bool_decide _ then _ else _).
  destruct (edgesToMergeMap st !! edgeKeyToUse) as [[possibleEdge1 possibleEdge2]|] eqn:Hkey;
    [|done].
  destruct (Hedges _ _ Hkey) as [[H11 H12] [H21 H22]]. simpl in H11, H12, H21, H22.
  set (picked := if _ || _ then _ else _).
  assert (pair_ok P picked) as Hpicked.
  { unfold picked. destruct (_ || _); repeat split; done. }
  destruct picked as [otherEdge originalEdge].
  destruct Hpicked as [[Ho1 Ho2] [Hr1 Hr2]]. simpl in Ho1, Ho2, Hr1, Hr2.
  destruct (_ && _); [done|].
  set (swapped := if (_ <? _)%float then _ else _).
  assert (edge_ok P swapped) as Hswapped.
  { unfold swapped. destruct (_ <? _)%float; split; done. }
  destruct swapped as [index2 index3]. destruct Hswapped as [H2 H3]. simpl in H2, H3.
  split; [|split]; simpl.
  - apply merge_ok; [apply merge_ok; [done|..]|..]; by apply (replaceDeleted_ok P).
  - apply aliasDeletedVertex_ok; [apply aliasDeletedVertex_ok; [done|]|];
      by apply (replaceDeleted_ok P).
  - intros k p [_ [_ Hp]%lookup_delete_Some]%lookup_delete_Some.
    by apply (Hedges _ _ Hp).
Qed.

Lemma weldLoop_ok (P : index → Prop) (vertices : list float) (tris : list triangle)
    (st : weld_state) :
  weld_ok P st → weld_ok P (weldLoop vertices tris st).
Proof.
  unfold weldLoop. revert st.
  induction tris as [|[[i1 i2] i3] tris IH]; intros st Hst; [done|].
  simpl. apply IH. unfold weldTriangle, triangleEdges. simpl.
  by do 3 apply mergeEdge_ok.
Qed.

Lemma edgesToMergeMapOf_ok (P : index → Prop) (edgesToMerge : list edge_pair) :
  Forall (pair_ok P) edgesToMerge →
  ∀ k p, edgesToMergeMapOf edgesToMerge !! k = Some p → pair_ok P p.
Proof.
  unfold edgesToMergeMapOf.
  assert (∀ m : gmap edge edge_pair,
            (∀ k p, m !! k = Some p → pair_ok P p) →
            Forall (pair_ok P) edgesToMerge →
            ∀ k p, foldl (λ m edgesList, <[edgesList.2 := edgesList]>
                                           (<[edgesList.1 := edgesList]> m))
                         m edgesToMerge !! k = Some p → pair_ok P p) as Hgen.
  { induction edgesToMerge as [|q rest IH]; intros m Hm Hall; [done|].
    inversion Hall as [|? ? Hq Hrest]; subst. simpl. apply IH; [|done].
    intros k p. rewrite !lookup_insert. repeat case_decide; try (by intros [= <-]).
    apply Hm. }
  intros Hall. apply Hgen; [|done]. intros k p. by rewrite lookup_empty.
Qed.

(** The invariant holds when the loop of [weldVertices] ends. *)
Lemma weldState_ok (P : index → Prop) (cos_libm : float → float) (vertices : list float)
    (indices : list nat) (thresholdAngle : float) :
  Forall (corners P) (triangles indices) →
  weld_ok P (weldState cos_libm vertices indices thresholdAngle).
Proof.
  intros Htris. unfold weldState. apply weldLoop_ok. split; [|split]; simpl.
  - intros k l. by rewrite lookup_empty.
  - intros k v. by rewrite lookup_empty.
  - by eapply edgesToMergeMapOf_ok, computeEdgesToMerge_ok.
Qed.

(** ** fillOutMergeMap *)

Lemma assignKey_lookup (key : nat) (newMergeMap : gmap index nat) (indices : list index)
    (a : index) :
  assignKey key newMergeMap indices !! a =
    if decide (a ∈ indices) then Some key else newMergeMap !! a.
Proof.
  unfold assignKey. revert newMergeMap.
  induction indices as [|ind indices IH]; intros newMergeMap.
  - destruct (decide (a ∈ [])) as [Hin|]; [by apply elem_of_nil in Hin|done].
  - simpl foldl. rewrite IH.
    destruct (decide (a ∈ indices)) as [Hin|Hout].
    + rewrite decide_True; [done|by right].
    + rewrite lookup_insert. destruct (decide (ind = a)) as [->|Hne].
      * rewrite decide_True; [done|by left].
      * rewrite decide_False; [done|]. by intros [?|?]%elem_of_cons.
Qed.

(** Every entry of the table comes from a key of the merge map and an
    element of that key's list. *)
Lemma fillOutKeys_sound (mergeMap : gmap index (list index)) (keys : list index)
    (newMergeMap table : gmap index nat) (a : index) (n : nat) :
  fillOutKeys mergeMap keys newMergeMap = Returns table →
  table !! a = Some n →
  newMergeMap !! a = Some n
  ∨ ∃ l, Idx n ∈ keys ∧ mergeMap !! Idx n = Some l ∧ a ∈ l.
Proof.
  revert newMergeMap. induction keys as [|[key|] keys IH]; intros newMergeMap; simpl.
  - intros [= ->]. by left.
  - intros Hrun Ha. destruct (IH _ Hrun Ha) as [Hassigned|(l & Hkey & Hl & Hal)].
    + rewrite assignKey_lookup in Hassigned.
      destruct (decide _) as [Hin|Hout]; [|by left].
      injection Hassigned as ->. right.
      destruct (mergeMap !! Idx n) as [l|] eqn:Hl; simpl in Hin; [|set_solver].
      exists l. set_solver.
    + right. exists l. set_solver.
  - discriminate.
Qed.

Lemma fillOutKeys_returns (mergeMap : gmap index (list index)) (keys : list index)
    (newMergeMap : gmap index nat) :
  Forall (λ k, ∃ n, k = Idx n) keys →
  ∃ table, fillOutKeys mergeMap keys newMergeMap = Returns table.
Proof.
  intros Hkeys. revert newMergeMap.
  induction Hkeys as [|k keys [n ->] _ IH]; intros newMergeMap; simpl; eauto.
Qed.

Lemma numericKeys_elem {V} (o : gmap index V) (n : nat) :
  n ∈ numericKeys o ↔ is_Some (o !! Idx n).
Proof.
  unfold numericKeys. rewrite list_elem_of_omap. split.
  - intros ([k v] & Hkv%elem_of_map_to_list & Hk). simpl in Hk.
    destruct k as [m|]; simpl in Hk; [|done]. injection Hk as ->. by exists v.
  - intros [v Hv]. exists (Idx n, v). by rewrite elem_of_map_to_list.
Qed.

(** [Object.keys] lists exactly the keys that are present. *)
Lemma Object_keys_elem {V} (o : gmap index V) (k : index) :
  k ∈ Object_keys o ↔ is_Some (o !! k).
Proof.
  unfold Object_keys. rewrite elem_of_app, list_elem_of_fmap. split.
  - intros [(n & -> & Hn)|Hk].
    + by rewrite merge_sort_Permutation, numericKeys_elem in Hn.
    + destruct (decide (is_Some (o !! Undef))); [|by apply elem_of_nil in Hk].
      by apply list_elem_of_singleton in Hk as ->.
  - intros Hk. destruct k as [n|].
    + left. exists n. by rewrite merge_sort_Permutation, numericKeys_elem.
    + right. rewrite decide_True by done. by left.
Qed.

Lemma fillOutMergeMap_sound (mergeMap : gmap index (list index))
    (table : gmap index nat) (a : index) (n : nat) :
  fillOutMergeMap mergeMap = Returns table →
  table !! a = Some n →
  ∃ l, mergeMap !! Idx n = Some l ∧ a ∈ l.
Proof.
  intros Hrun Ha.
  destruct (fillOutKeys_sound _ _ _ _ _ _ Hrun Ha) as [Hempty|(l & _ & Hl & Hal)]; [|eauto].
  by rewrite lookup_empty in Hempty.
Qed.

Lemma fillOutMergeMap_returns (mergeMap : gmap index (list index)) :
  (∀ k l, mergeMap !! k = Some l → ∃ n, k = Idx n) →
  ∃ table, fillOutMergeMap mergeMap = Returns table.
Proof.
  intros Hkeys. apply fillOutKeys_returns, Forall_forall.
  intros k [l Hl]%Object_keys_elem. eauto.
Qed.

(** The loop over the numeric keys, and what the key "undefined" does to
    it. *)
Lemma fillOutKeys_numeric (mergeMap : gmap index (list index)) (keys : list nat)
    (rest : list index) (newMergeMap : gmap index nat) :
  fillOutKeys mergeMap ((Idx <$> keys) ++ rest) newMergeMap
    = fillOutKeys mergeMap rest
        (foldl (λ m key, assignKey key m (default [] (mergeMap !! Idx key)))
               newMergeMap keys).
Proof.
  revert newMergeMap. induction keys as [|key keys IH]; intros newMergeMap; [done|].
  simpl. apply IH.
Qed.

(** Over ascending keys the greatest key whose list holds [a] wins. *)
Lemma assignKeys_greatest (mergeMap : gmap index (list index)) (keys : list nat)
    (newMergeMap : gmap index nat) (a : index) (b : nat) :
  StronglySorted le keys →
  foldl (λ m key, assignKey key m (default [] (mergeMap !! Idx key)))
        newMergeMap keys !! a = Some b →
  (newMergeMap !! a = Some b
   ∧ ∀ key, key ∈ keys → a ∉ default [] (mergeMap !! Idx key))
  ∨ (b ∈ keys ∧ a ∈ default [] (mergeMap !! Idx b)
     ∧ ∀ key, key ∈ keys → a ∈ default [] (mergeMap !! Idx key) → key ≤ b).
Proof.
  intros Hsorted. revert newMergeMap.
  induction Hsorted as [|key keys Hsorted IH Hleast]; intros newMergeMap; simpl.
  - intros Hb. left. split; [done|]. intros key Hkey. by apply elem_of_nil in Hkey.
  - rewrite Forall_forall in Hleast.
    intros [[Hassigned Hnone]|(Hb & Hab & Hgreatest)]%IH.
    + rewrite assignKey_lookup in Hassigned.
      destruct (decide _) as [Hin|Hout].
      * injection Hassigned as <-. right. split; [by left|]. split; [done|].
        intros key' [->|Hkey']%elem_of_cons Hin'; [done|]. by destruct (Hnone key').
      * left. split; [done|]. intros key' [->|Hkey']%elem_of_cons; [done|by apply Hnone].
    + right. split; [by right|]. split; [done|].
      intros key' [->|Hkey']%elem_of_cons Hin'; [by apply Hleast|by apply Hgreatest].
Qed.

(** Every entry [a -> b] of the table names the greatest key of the merge
    map whose list holds [a]: one hop, the last key winning. *)
Lemma fillOutMergeMap_greatest (mergeMap : gmap index (list index))
    (table : gmap index nat) (a : index) (b : nat) :
  fillOutMergeMap mergeMap = Returns table →
  table !! a = Some b →
  ∃ l, mergeMap !! Idx b = Some l ∧ a ∈ l
       ∧ ∀ b' l', mergeMap !! Idx b' = Some l' → a ∈ l' → b' ≤ b.
Proof.
  unfold fillOutMergeMap, Object_keys. rewrite fillOutKeys_numeric.
  destruct (decide (is_Some (mergeMap !! Undef))); simpl; [discriminate|].
  intros [= <-] Hb.
  apply assignKeys_greatest in Hb;
    [|apply (StronglySorted_merge_sort le); intros x y z; lia].
  destruct Hb as [[Hempty _]|(Hkey & Hab & Hgreatest)];
    [by rewrite lookup_empty in Hempty|].
  destruct (mergeMap !! Idx b) as [l|] eqn:Hl; simpl in Hab;
    [|by apply elem_of_nil in Hab].
  exists l. split; [done|]. split; [done|]. intros b' l' Hl' Hin'.
  apply Hgreatest; [|by rewrite Hl'].
  rewrite merge_sort_Permutation, numericKeys_elem. eauto.
Qed.

(** ** The Index Rewriter *)

Lemma rewriteIndices_fmap (finalMergeMap : gmap index nat) (indices : list nat) :
  rewriteIndices finalMergeMap indices = newIndexOf finalMergeMap <$> indices.
Proof.
  unfold rewriteIndices.
  assert (∀ buffer, foldl (λ newIndexBuffer index,
                              newIndexBuffer ++ [newIndexOf finalMergeMap index])
                          buffer indices
                    = buffer ++ (newIndexOf finalMergeMap <$> indices)) as Hgen.
  { induction indices as [|index indices IH]; intros buffer; simpl.
    - by rewrite app_nil_r.
    - by rewrite IH, <- app_assoc. }
  apply Hgen.
Qed.

Lemma weldVertices_returns_inv (cos_libm : float → float) (vertices : list float)
    (indices : list nat) (thresholdAngle : float) (out : list nat) :
  weldVertices cos_libm vertices indices thresholdAngle = Returns out →
  ∃ table, finalMergeMap cos_libm vertices indices thresholdAngle = Returns table
           ∧ out = newIndexOf table <$> indices.
Proof.
  unfold weldVertices.
  destruct (finalMergeMap _ _ _ _) as [table|e]; [|discriminate].
  intros [= <-]. exists table. by rewrite rewriteIndices_fmap.
Qed.

(** On a buffer of whole triangles the welder returns. *)
Lemma weldVertices_total (cos_libm : float → float) (vertices : list float)
    (indices : list nat) (thresholdAngle : float) :
  length indices `mod` 3 = 0 →
  ∃ out, weldVertices cos_libm vertices indices thresholdAngle = Returns out.
Proof.
  intros Hlen. unfold weldVertices, finalMergeMap.
  destruct (fillOutMergeMap_returns
              (mergedMap (weldState cos_libm vertices indices thresholdAngle)))
    as [table ->]; [|eauto].
  intros k l Hl.
  destruct (weldState_ok (λ i, ∃ n, i = Idx n) cos_libm vertices indices thresholdAngle
              (triangles_defined indices Hlen)) as (Hmerged & _ & _).
  by destruct (Hmerged _ _ Hl).
Qed.

(** ** Scenario A *)

(** The run of scenario A depends on the platform's cosine only through
    one comparison: [cos(1 degree) < 1]. *)
Lemma scenarioA_pairs (cos_libm : float → float) :
  (thresholdDotOf cos_libm 1 <? 1)%float = true →
  computeEdgesToMerge cos_libm scenarioA_vertices scenarioA_indices 1
    = [((Idx 1, Idx 2), (Idx 5, Idx 3))].
Proof.
  unfold computeEdgesToMerge.
  generalize (thresholdDotOf cos_libm 1). intros thresholdDot Hbelow.
  vm_compute. by rewrite Hbelow.
Qed.

(** C1 — Scenario A: two coplanar unit right triangles whose shared edge
    is duplicated (vertex 3 on vertex 1, vertex 5 on vertex 2), index
    buffer [0,1,2,3,4,5], threshold 1 degree: [weldVertices] returns exactly
    [0,1,2,1,4,2].  The only fact used of the platform's cosine is that
    cos(1 degree) is below 1. *)
Theorem scenarioA_weld (cos_libm : float → float) :
  (thresholdDotOf cos_libm 1 <? 1)%float = true →
  weldVertices cos_libm scenarioA_vertices scenarioA_indices 1
    = Returns [0; 1; 2; 1; 4; 2].
Proof.
  intros Hbelow. unfold weldVertices, finalMergeMap, weldState.
  rewrite (scenarioA_pairs cos_libm Hbelow). vm_compute. reflexivity.
Qed.

Lemma scenarioA_weld_witness :
  (thresholdDotOf cos_series 1 <? 1)%float = true
  ∧ weldVertices cos_series scenarioA_vertices scenarioA_indices 1
    = Returns [0; 1; 2; 1; 4; 2].
Proof.
  assert ((thresholdDotOf cos_series 1 <? 1)%float = true) as Hbelow
    by (vm_compute; reflexivity).
  split; [exact Hbelow|]. exact (scenarioA_weld cos_series Hbelow).
Defined.

(** ** The rewritten index buffer *)

(** C3 — The buffer [weldVertices] returns has exactly the length of the
    input index buffer.  On an index buffer of whole triangles, which is
    the input of the welding operation (a flat index array of length
    3 x triangle count), the call returns, and the returned length is a
    multiple of 3 as well. *)
Theorem weldVertices_length (cos_libm : float → float) (vertices : list float)
    (indices : list nat) (thresholdAngle : float) :
  (∀ out, weldVertices cos_libm vertices indices thresholdAngle = Returns out →
          length out = length indices)
  ∧ (length indices `mod` 3 = 0 →
     ∃ out, weldVertices cos_libm vertices indices thresholdAngle = Returns out
            ∧ length out = length indices
            ∧ length out `mod` 3 = 0).
Proof.
  assert (∀ out, weldVertices cos_libm vertices indices thresholdAngle = Returns out →
                 length out = length indices) as Hlength.
  { intros out (table & _ & ->)%weldVertices_returns_inv. apply length_fmap. }
  split; [exact Hlength|]. intros Hlen.
  destruct (weldVertices_total cos_libm vertices indices thresholdAngle Hlen) as [out Hout].
  exists out. rewrite (Hlength out Hout). done.
Qed.

Lemma weldVertices_length_witness :
  ∃ out, weldVertices cos_series scenarioA_vertices scenarioA_indices 1 = Returns out
         ∧ length out = length scenarioA_indices
         ∧ length out `mod` 3 = 0.
Proof.
  apply (weldVertices_length cos_series scenarioA_vertices scenarioA_indices 1).
  reflexivity.
Defined.

(** C4 — Each position of the returned buffer holds the alias table's
    representative of the input index at that position when the table has
    one, and the input index itself otherwise; so the buffer keeps its
    length and order, and equal input indices are rewritten alike. *)
Theorem weldVertices_rewrites (cos_libm : float → float) (vertices : list float)
    (indices : list nat) (thresholdAngle : float) (out : list nat) :
  weldVertices cos_libm vertices indices thresholdAngle = Returns out →
  ∃ table,
    finalMergeMap cos_libm vertices indices thresholdAngle = Returns table
    ∧ length out = length indices
    ∧ (∀ i index, indices !! i = Some index →
         out !! i = Some match table !! Idx index with
                         | Some representative => representative
                         | None => index
                         end)
    ∧ (∀ i j, indices !! i = indices !! j → out !! i = out !! j).
Proof.
  intros (table & Htable & ->)%weldVertices_returns_inv. exists table.
  split; [done|]. split; [apply length_fmap|]. split.
  - intros i index Hi. rewrite list_lookup_fmap, Hi. done.
  - intros i j Hij. by rewrite !list_lookup_fmap, Hij.
Qed.

Lemma weldVertices_rewrites_witness :
  ∃ table,
    finalMergeMap cos_series scenarioA_vertices scenarioA_indices 1 = Returns table
    ∧ length [0; 1; 2; 1; 4; 2] = length scenarioA_indices
    ∧ (∀ i index, scenarioA_indices !! i = Some index →
         [0; 1; 2; 1; 4; 2] !! i = Some match table !! Idx index with
                                         | Some representative => representative
                                         | None => index
                                         end)
    ∧ (∀ i j, scenarioA_indices !! i = scenarioA_indices !! j →
         [0; 1; 2; 1; 4; 2] !! i = [0; 1; 2; 1; 4; 2] !! j).
Proof.
  apply (weldVertices_rewrites cos_series scenarioA_vertices scenarioA_indices 1).
  vm_compute. reflexivity.
Defined.

(** C10 — Every value of the returned buffer occurs in the input buffer:
    welding introduces no vertex index. *)
Theorem weldVertices_no_new_index (cos_libm : float → float) (vertices : list float)
    (indices : list nat) (thresholdAngle : float) (out : list nat) :
  weldVertices cos_libm vertices indices thresholdAngle = Returns out →
  ∀ x, x ∈ out → x ∈ indices.
Proof.
  intros (table & Htable & ->)%weldVertices_returns_inv x.
  intros (index & -> & Hindex)%list_elem_of_fmap.
  unfold newIndexOf. destruct (table !! Idx index) as [n|] eqn:Hn; simpl; [|done].
  destruct (fillOutMergeMap_sound _ _ _ _ Htable Hn) as (l & Hl & _).
  destruct (weldState_ok (λ i, ∀ n, i = Idx n → n ∈ indices)
              cos_libm vertices indices thresholdAngle (triangles_from_buffer indices))
    as (Hmerged & _ & _).
  destruct (Hmerged _ _ Hl) as [Hkey _]. by apply Hkey.
Qed.

Lemma weldVertices_no_new_index_witness :
  weldVertices cos_series scenarioA_vertices scenarioA_indices 1
    = Returns [0; 1; 2; 1; 4; 2]
  ∧ Forall (λ x, x ∈ scenarioA_indices) [0; 1; 2; 1; 4; 2].
Proof.
  assert (weldVertices cos_series scenarioA_vertices scenarioA_indices 1
          = Returns [0; 1; 2; 1; 4; 2]) as Hweld by (vm_compute; reflexivity).
  split; [exact Hweld|]. apply Forall_forall.
  exact (weldVertices_no_new_index cos_series scenarioA_vertices scenarioA_indices 1
           _ Hweld).
Defined.

(** ** The alias table *)

(** The run on the three-triangle fan, for any platform cosine with
    cos(1 degree) below 1. *)
Lemma fan_pairs (cos_libm : float → float) :
  (thresholdDotOf cos_libm 1 <? 1)%float = true →
  computeEdgesToMerge cos_libm fan_vertices fan_indices 1
    = [((Idx 4, Idx 5), (Idx 6, Idx 7)); ((Idx 2, Idx 1), (Idx 8, Idx 6))].
Proof.
  unfold computeEdgesToMerge.
  generalize (thresholdDotOf cos_libm 1). intros thresholdDot Hbelow.
  vm_compute. by rewrite Hbelow.
Qed.

Lemma fan_table (cos_libm : float → float) :
  (thresholdDotOf cos_libm 1 <? 1)%float = true →
  finalMergeMap cos_libm fan_vertices fan_indices 1
    = Returns {[ Idx 1 := 1; Idx 2 := 5; Idx 4 := 4; Idx 5 := 2;
                 Idx 6 := 2; Idx 7 := 4; Idx 8 := 1 ]}.
Proof.
  intros Hbelow. unfold finalMergeMap, weldState.
  rewrite (fan_pairs cos_libm Hbelow). vm_compute. reflexivity.
Qed.

(** C2, the code against the claim — Three coplanar triangles around a
    point, each with its own copy of it (vertices 2, 5 and 6), welded at 1
    degree.  The alias table sends 6 to 2 and 2 on to 5 (and 5 back to 2):
    it is not transitively closed, and applying it twice differs from
    applying it once.  Vertex 0 takes no part in it.  In the welded buffer
    (see [fan_weld_twice]) the first triangle names the shared point by 5
    and the third by 2. *)
Theorem alias_table_not_closed :
  ∃ table,
    finalMergeMap cos_series fan_vertices fan_indices 1 = Returns table
    ∧ table !! Idx 6 = Some 2 ∧ table !! Idx 2 = Some 5 ∧ table !! Idx 5 = Some 2
    ∧ ¬ transitively_closed table.
Proof.
  eexists. split; [apply fan_table; vm_compute; reflexivity|].
  split; [vm_compute; reflexivity|]. split; [vm_compute; reflexivity|].
  split; [vm_compute; reflexivity|].
  intros Hclosed.
  destruct (Hclosed (Idx 6) 2 ltac:(vm_compute; reflexivity)) as [H|H];
    vm_compute in H; discriminate.
Qed.

(** ** Welding a welded buffer again *)

Lemma alreadyWelded_inv (vertices : list float) (p : edge_pair) :
  alreadyWelded vertices p = true →
  ∃ a b, p = ((Idx a, Idx b), (Idx b, Idx a))
         ∧ (one_tenth <? Vector3.distanceTo (getVertexFromIndexBuffer (Idx a) vertices)
                                            (getVertexFromIndexBuffer (Idx b) vertices))%float
           = true.
Proof.
  destruct p as [[[a|] [b|]] [[b'|] [a'|]]]; simpl; try discriminate.
  intros [[->%Nat.eqb_eq ->%Nat.eqb_eq]%andb_true_iff Hfar]%andb_true_iff. eauto.
Qed.

Lemma merge_self (m : gmap index (list index)) (n : nat) :
  (∀ k l, m !! k = Some l → (∃ n, k = Idx n) ∧ Forall (λ i, i = k) l) →
  ∀ k l, merge m (Idx n) (Idx n) !! k = Some l → (∃ n, k = Idx n) ∧ Forall (λ i, i = k) l.
Proof.
  intros Hm k l. unfold merge. rewrite lookup_insert.
  case_decide as Hk; [|apply Hm]. subst k. intros [= <-]. split; [eauto|].
  apply Forall_app. split; [|by repeat constructor].
  destruct (m !! Idx n) as [l1|] eqn:Hl1; simpl; [|constructor]. by apply (Hm _ _ Hl1).
Qed.

Lemma mergeEdge_welded (vertices : list float) (st : weld_state) (e : edge) :
  welded_ok vertices st → welded_ok vertices (mergeEdge vertices st e).
Proof.
  intros (Hmerged & Haliases & Hedges). destruct e as [i0 i1]. unfold mergeEdge.
  set (edgeKeyToUse := if bool_decide _ then _ else _).
  assert (edgeKeyToUse = (i0, i1) ∨ edgeKeyToUse = (i1, i0)) as Huse.
  { unfold edgeKeyToUse. destruct (bool_decide _); auto. }
  destruct (edgesToMergeMap st !! edgeKeyToUse) as [p|] eqn:Hkey; [|done].
  destruct (Hedges _ _ Hkey) as [Hp Hk].
  destruct (alreadyWelded_inv _ _ Hp) as (a & b & -> & Hfar). simpl in Hk.
  cbn [fst snd].
  assert ((loose_eq (Idx a) i0 && loose_eq (Idx b) i1)
          || (loose_eq (Idx a) i1 && loose_eq (Idx b) i0) = true) as ->.
  { destruct Huse as [Hu|Hu], Hk as [Hk|Hk]; rewrite Hu in Hk;
      injection Hk as -> ->; rewrite !loose_eq_refl; simpl; by rewrite ?orb_true_r. }
  cbn [fst snd].
  destruct (loose_eq (Idx a) (Idx b) && loose_eq (Idx b) (Idx a)); [done|].
  rewrite Hfar, Haliases, !replaceDeleted_empty.
  split; [|split]; simpl.
  - by do 2 apply merge_self.
  - unfold aliasDeletedVertex. by rewrite !loose_eq_refl.
  - intros k p [_ [_ Hkp]%lookup_delete_Some]%lookup_delete_Some. by apply Hedges.
Qed.

Lemma weldLoop_welded (vertices : list float) (tris : list triangle) (st : weld_state) :
  welded_ok vertices st → welded_ok vertices (weldLoop vertices tris st).
Proof.
  unfold weldLoop. revert st.
  induction tris as [|[[i1 i2] i3] tris IH]; intros st Hst; [done|].
  simpl. apply IH. unfold weldTriangle, triangleEdges. simpl.
  by do 3 apply mergeEdge_welded.
Qed.

Lemma edgesToMergeMapOf_keys (edgesToMerge : list edge_pair) (k : edge) (p : edge_pair) :
  edgesToMergeMapOf edgesToMerge !! k = Some p →
  p ∈ edgesToMerge ∧ (k = p.1 ∨ k = p.2).
Proof.
  unfold edgesToMergeMapOf.
  assert (∀ m : gmap edge edge_pair,
            foldl (λ m edgesList, <[edgesList.2 := edgesList]>
                                    (<[edgesList.1 := edgesList]> m))
                  m edgesToMerge !! k = Some p →
            m !! k = Some p ∨ (p ∈ edgesToMerge ∧ (k = p.1 ∨ k = p.2))) as Hgen.
  { induction edgesToMerge as [|q rest IH]; intros m; simpl; [by left|].
    intros [Hm|[Hin Hk]]%IH; [|right; split; [by right|done]].
    revert Hm. rewrite !lookup_insert.
    destruct (decide (q.2 = k)) as [<-|_]; [|destruct (decide (q.1 = k)) as [<-|_]].
    - intros [= <-]. right. split; [by left|by right].
    - intros [= <-]. right. split; [by left|by left].
    - by left. }
  intros [Hempty|Hp]%Hgen; [|done]. by rewrite lookup_empty in Hempty.
Qed.

Lemma weldState_welded (cos_libm : float → float) (vertices : list float)
    (indices : list nat) (thresholdAngle : float) :
  forallb (alreadyWelded vertices)
          (computeEdgesToMerge cos_libm vertices indices thresholdAngle) = true →
  welded_ok vertices (weldState cos_libm vertices indices thresholdAngle).
Proof.
  intros Hall. unfold weldState. apply weldLoop_welded. split; [|split]; simpl.
  - intros k l. by rewrite lookup_empty.
  - done.
  - intros k p [Hp Hk]%edgesToMergeMapOf_keys. split; [|done].
    rewrite forallb_forall in Hall. by apply Hall, list_elem_of_In.
Qed.

(** On a buffer whose selected edges are all already welded, the welder
    returns the buffer as it is. *)
Lemma weldVertices_welded (cos_libm : float → float) (vertices : list float)
    (indices : list nat) (thresholdAngle : float) :
  forallb (alreadyWelded vertices)
          (computeEdgesToMerge cos_libm vertices indices thresholdAngle) = true →
  weldVertices cos_libm vertices indices thresholdAngle = Returns indices.
Proof.
  intros (Hmerged & _ & _)%weldState_welded. unfold weldVertices, finalMergeMap.
  destruct (fillOutMergeMap_returns
              (mergedMap (weldState cos_libm vertices indices thresholdAngle)))
    as [table Htable].
  { intros k l Hl. by destruct (Hmerged _ _ Hl). }
  rewrite Htable, rewriteIndices_fmap. f_equal.
  rewrite <- (list_fmap_id indices) at 2. apply list_fmap_ext.
  intros _ index _. unfold newIndexOf.
  destruct (table !! Idx index) as [n|] eqn:Hn; simpl; [|done].
  destruct (fillOutMergeMap_sound _ _ _ _ Htable Hn) as (l & Hl & Hin).
  destruct (Hmerged _ _ Hl) as [_ Hself]. rewrite Forall_forall in Hself.
  by injection (Hself _ Hin) as ->.
Qed.

Lemma fan_welded_pairs (cos_libm : float → float) :
  (thresholdDotOf cos_libm 1 <? 1)%float = true →
  computeEdgesToMerge cos_libm fan_vertices [1; 0; 5; 3; 4; 2; 2; 4; 1] 1
    = [((Idx 4, Idx 2), (Idx 2, Idx 4)); ((Idx 5, Idx 1), (Idx 1, Idx 2))].
Proof.
  unfold computeEdgesToMerge.
  generalize (thresholdDotOf cos_libm 1). intros thresholdDot Hbelow.
  vm_compute. by rewrite Hbelow.
Qed.

(** Welding the fan twice, for any platform cosine with cos(1 degree)
    below 1. *)
Lemma fan_weld_twice (cos_libm : float → float) :
  (thresholdDotOf cos_libm 1 <? 1)%float = true →
  weldVertices cos_libm fan_vertices fan_indices 1
    = Returns [1; 0; 5; 3; 4; 2; 2; 4; 1]
  ∧ weldVertices cos_libm fan_vertices [1; 0; 5; 3; 4; 2; 2; 4; 1] 1
    = Returns [1; 0; 5; 3; 4; 5; 5; 4; 1].
Proof.
  intros Hbelow. split; unfold weldVertices, finalMergeMap, weldState.
  - rewrite (fan_pairs cos_libm Hbelow). vm_compute. reflexivity.
  - rewrite (fan_welded_pairs cos_libm Hbelow). vm_compute. reflexivity.
Qed.

(** C5, the code against the claim — The three-triangle fan is welded to
    [1,0,5,3,4,2,2,4,1], and welding that buffer again, with the same
    positions and threshold, changes it to [1,0,5,3,4,5,5,4,1]: the first
    run had left the coplanar edge between the first and the third
    triangle unwelded (its upper end is named 5 by the one and 2 by the
    other). *)
Theorem reweld_changes :
  weldVertices cos_series fan_vertices fan_indices 1
    = Returns [1; 0; 5; 3; 4; 2; 2; 4; 1]
  ∧ weldVertices cos_series fan_vertices [1; 0; 5; 3; 4; 2; 2; 4; 1] 1
    = Returns [1; 0; 5; 3; 4; 5; 5; 4; 1].
Proof. apply fan_weld_twice. vm_compute. reflexivity. Qed.

(** ** Two more runs *)

(** The alias of a vertex welded to vertex 0 is the number 0, which the
    test [if (vertexAliases[i])] takes for a missing alias: vertex 4,
    already deleted in favour of 0, is used as a representative again, and
    the table ends up exchanging 0 and 4 instead of welding them. *)
Lemma alias_zero_not_followed (cos_libm : float → float) :
  (thresholdDotOf cos_libm 1 <? 1)%float = true →
  finalMergeMap cos_libm origin_vertices origin_indices 1
    = Returns {[ Idx 0 := 4; Idx 1 := 1; Idx 3 := 1; Idx 4 := 0 ]}
  ∧ weldVertices cos_libm origin_vertices origin_indices 1
    = Returns [4; 1; 2; 1; 0; 5].
Proof.
  intros Hbelow.
  assert (computeEdgesToMerge cos_libm origin_vertices origin_indices 1
          = [((Idx 0, Idx 1), (Idx 3, Idx 4))]) as Hpairs.
  { unfold computeEdgesToMerge. revert Hbelow.
    generalize (thresholdDotOf cos_libm 1). intros thresholdDot Hbelow.
    vm_compute. by rewrite Hbelow. }
  unfold weldVertices, finalMergeMap, weldState. rewrite Hpairs.
  split; vm_compute; reflexivity.
Qed.

(** An index buffer that stops inside a triangle can make the welder
    throw: the missing index is [undefined], it becomes a key of the merge
    map, and [fillOutMergeMap] iterates over [mergeMap[NaN]]. *)
Lemma partial_triangle_throws (cos_libm : float → float) :
  (thresholdDotOf cos_libm 1 <? 1)%float = true →
  weldVertices cos_libm partial_vertices partial_indices 1 = Throws TypeError.
Proof.
  intros Hbelow.
  assert (computeEdgesToMerge cos_libm partial_vertices partial_indices 1
          = [((Idx 2, Idx 0), (Undef, Idx 3))]) as Hpairs.
  { unfold computeEdgesToMerge. revert Hbelow.
    generalize (thresholdDotOf cos_libm 1). intros thresholdDot Hbelow.
    vm_compute. by rewrite Hbelow. }
  unfold weldVertices, finalMergeMap, weldState. rewrite Hpairs.
  vm_compute. reflexivity.
Qed.

(** ** The threshold *)

(** X15 — The Edge Matcher is monotone in the threshold dot: for a fixed
    mesh, whenever the platform's cosine gives [cos t2 <= cos t1], the
    pairs selected at threshold [t1] are a sub-list of those selected at
    [t2], in the same order.  (Whether [t1 <= t2] gives [cos t2 <= cos t1]
    is up to the platform's [Math.cos]; and nothing of the kind holds of
    the vertex pairs finally welded.) *)
Theorem selected_pairs_monotone (cos_libm : float → float) (vertices : list float)
    (indices : list nat) (t1 t2 : float) :
  (thresholdDotOf cos_libm t2 <=? thresholdDotOf cos_libm t1)%float = true →
  computeEdgesToMerge cos_libm vertices indices t1
    `sublist_of` computeEdgesToMerge cos_libm vertices indices t2
  ∧ length (computeEdgesToMerge cos_libm vertices indices t1)
    ≤ length (computeEdgesToMerge cos_libm vertices indices t2).
Proof.
  intros Hle.
  assert (computeEdgesToMerge cos_libm vertices indices t1
            `sublist_of` computeEdgesToMerge cos_libm vertices indices t2) as Hsub.
  { unfold computeEdgesToMerge. by apply matchAll_mono. }
  split; [done|]. by apply sublist_length.
Qed.

Lemma selected_pairs_monotone_witness :
  computeEdgesToMerge cos_series fold_vertices fold_indices 1
    `sublist_of` computeEdgesToMerge cos_series fold_vertices fold_indices 100
  ∧ length (computeEdgesToMerge cos_series fold_vertices fold_indices 1)
    ≤ length (computeEdgesToMerge cos_series fold_vertices fold_indices 100).
Proof.
  apply (selected_pairs_monotone cos_series fold_vertices fold_indices 1 100).
  vm_compute. reflexivity.
Defined.

(** The pairs selected on the fold mesh depend on the threshold dot
    through two comparisons: the coplanar pair has dot product 1, the
    folded pair has dot product 0. *)
Lemma fold_pairs (cos_libm : float → float) (thresholdAngle : float) :
  computeEdgesToMerge cos_libm fold_vertices fold_indices thresholdAngle
    = (if (thresholdDotOf cos_libm thresholdAngle <? 1)%float
       then [((Idx 1, Idx 5), (Idx 5, Idx 4))] else [])
      ++ (if (thresholdDotOf cos_libm thresholdAngle <? 0)%float
          then [((Idx 3, Idx 4), (Idx 4, Idx 3))] else []).
Proof.
  unfold computeEdgesToMerge.
  generalize (thresholdDotOf cos_libm thresholdAngle). intros thresholdDot.
  vm_compute.
  destruct (thresholdDot <? 0)%float, (thresholdDot <? 1)%float; reflexivity.
Qed.

(** Welding the fold mesh at a threshold [t1] that selects the coplanar
    pair only and at a threshold [t2] that selects the folded pair too. *)
Lemma fold_weld (cos_libm : float → float) (t1 t2 : float) :
  (thresholdDotOf cos_libm t1 <? 1)%float = true →
  (thresholdDotOf cos_libm t1 <? 0)%float = false →
  (thresholdDotOf cos_libm t2 <? 1)%float = true →
  (thresholdDotOf cos_libm t2 <? 0)%float = true →
  (weldedVertexPairs cos_libm fold_vertices fold_indices t1 = Returns 1
   ∧ weldVertices cos_libm fold_vertices fold_indices t1
     = Returns [3; 1; 2; 0; 1; 5; 3; 5; 1])
  ∧ (weldedVertexPairs cos_libm fold_vertices fold_indices t2 = Returns 0
     ∧ weldVertices cos_libm fold_vertices fold_indices t2 = Returns fold_indices).
Proof.
  intros H11 H10 H21 H20.
  unfold weldedVertexPairs, weldVertices, finalMergeMap, weldState.
  rewrite !fold_pairs, H11, H10, H21, H20.
  repeat split; vm_compute; reflexivity.
Qed.

(** C6, the code against the claim — Two coplanar triangles whose
    duplicated vertices 1 and 4 are welded at 1 degree, and a third
    triangle folded by 90 degrees along the edge 3-4, which it shares by
    index.  At 100 degrees that edge is selected too.  Its pair is the
    edge [3,4] with the edge [4,3]: the test for self edges
    ([index0 == index2 && index1 == index3]) comes before the orientation
    swap and misses it, the swap turns it into the self-merges of 3 and of
    4, and [fillOutMergeMap] then overwrites the entry that sent 4 to 1 by
    one that sends 4 to itself.  Nothing is welded any more and the buffer
    comes back unchanged: one welded vertex pair at 1 degree, none at 100
    degrees. *)
Theorem welded_pairs_not_monotone :
  (1 <=? 100)%float = true
  ∧ (weldedVertexPairs cos_series fold_vertices fold_indices 1 = Returns 1
     ∧ weldVertices cos_series fold_vertices fold_indices 1
       = Returns [3; 1; 2; 0; 1; 5; 3; 5; 1])
  ∧ (weldedVertexPairs cos_series fold_vertices fold_indices 100 = Returns 0
     ∧ weldVertices cos_series fold_vertices fold_indices 100 = Returns fold_indices).
Proof.
  split; [vm_compute; reflexivity|].
  apply fold_weld; vm_compute; reflexivity.
Qed.

(** ECMAScript fixes [Math.cos(0) = 1], whatever the platform. *)
Lemma thresholdDot_zero (cos_libm : float → float) :
  thresholdDotOf cos_libm 0 = 1%float.
Proof. vm_compute. reflexivity. Qed.

(** At threshold 0 scenario A selects nothing, on every platform. *)
Lemma scenarioA_threshold_zero (cos_libm : float → float) :
  computeEdgesToMerge cos_libm scenarioA_vertices scenarioA_indices 0 = []
  ∧ weldVertices cos_libm scenarioA_vertices scenarioA_indices 0
    = Returns scenarioA_indices.
Proof.
  assert (computeEdgesToMerge cos_libm scenarioA_vertices scenarioA_indices 0 = [])
    as Hnone.
  { unfold computeEdgesToMerge. rewrite thresholdDot_zero. vm_compute. reflexivity. }
  split; [done|]. unfold weldVertices, finalMergeMap, weldState.
  rewrite Hnone. vm_compute. reflexivity.
Qed.

(** C7 fails as stated: at threshold 0 the threshold dot is cos 0 = 1; the
    two coplanar triangles of scenario A have normals whose dot product is
    1, so the angle between them equals the threshold exactly, and the
    sibling edge is found (at 1 degree it is emitted): no pair is emitted
    and nothing is welded. *)
Lemma equal_to_threshold_not_merged :
  thresholdDotOf cos_series 0 = 1%float
  ∧ Vector3.dot
      (getNormal (getVertexFromIndexBuffer (Idx 3) scenarioA_vertices)
                 (getVertexFromIndexBuffer (Idx 4) scenarioA_vertices)
                 (getVertexFromIndexBuffer (Idx 5) scenarioA_vertices))
      (getNormal (getVertexFromIndexBuffer (Idx 0) scenarioA_vertices)
                 (getVertexFromIndexBuffer (Idx 1) scenarioA_vertices)
                 (getVertexFromIndexBuffer (Idx 2) scenarioA_vertices))
    = 1%float
  ∧ computeEdgesToMerge cos_series scenarioA_vertices scenarioA_indices 1
    = [((Idx 1, Idx 2), (Idx 5, Idx 3))]
  ∧ computeEdgesToMerge cos_series scenarioA_vertices scenarioA_indices 0 = []
  ∧ weldVertices cos_series scenarioA_vertices scenarioA_indices 0
    = Returns scenarioA_indices.
Proof.
  split; [apply thresholdDot_zero|]. split; [vm_compute; reflexivity|].
  split; [apply scenarioA_pairs; vm_compute; reflexivity|].
  apply scenarioA_threshold_zero.
Qed.

(** ** Degenerate triangles *)











(** ** Surface identifiers *)

Module FindSurfacesProperties.
Import FindSurfaces.


Lemma flood_keeps (m : mesh) (id fuel : nat) (frontier : list nat)
    (labels : gmap nat nat) (t : nat) :
  is_Some (labels !! t) → is_Some (flood m id fuel frontier labels !! t).
Proof.
  revert frontier labels.
  induction fuel as [|fuel IH]; intros frontier labels Ht; simpl; [done|].
  destruct frontier as [|s frontier]; [done|].
  destruct (labels !! s) eqn:Hs; apply IH; [done|].
  rewrite lookup_insert. by case_decide.
Qed.

Lemma flood_start (m : mesh) (id fuel : nat) (frontier : list nat)
    (labels : gmap nat nat) (t : nat) :
  labels !! t = None →
  flood m id (S fuel) (t :: frontier) labels
    = flood m id fuel (neighbours m t ++ frontier) (<[t := id]> labels).
Proof. intros Ht. simpl. by rewrite Ht. Qed.

#[local] Arguments flood : simpl never.




Lemma visit_keeps (m : mesh) (st : nat * gmap nat nat) (t u : nat) :
  is_Some (st.2 !! u) ∨ u = t → is_Some ((visit m st t).2 !! u).
Proof.
  unfold visit. intros Hu.
  destruct (st.2 !! t) eqn:Ht; simpl.
  - destruct Hu as [Hu| ->]; [done|]. by rewrite Ht.
  - rewrite flood_start by done. apply flood_keeps.
    rewrite lookup_insert. case_decide; [done|]. by destruct Hu.
Qed.

(** Every triangle of the mesh gets an identifier. *)
Lemma labelTriangles_total (m : mesh) (first t : nat) :
  t < numTriangles m → is_Some ((labelTriangles m first).2 !! t).
Proof.
  unfold labelTriangles. intros Hlt.
  assert (t ∈ seq 0 (numTriangles m)) as Ht by (apply elem_of_seq; lia).
  revert Ht. generalize (seq 0 (numTriangles m)). intros ts.
  assert (∀ st : nat * gmap nat nat,
            is_Some (st.2 !! t) ∨ t ∈ ts →
            is_Some ((foldl (visit m) st ts).2 !! t)) as Hgen.
  { induction ts as [|u ts IH]; intros st [Hst|Hin]; simpl.
    - done.
    - by apply elem_of_nil in Hin.
    - apply IH. left. apply visit_keeps. by left.
    - apply IH. apply elem_of_cons in Hin as [->|Hin]; [|by right].
      left. apply visit_keeps. by right. }
  intros Ht. apply Hgen. by right.
Qed.











End FindSurfacesProperties.

(** * More on the welder *)

(** ** The position buffer *)

Lemma positionBuffer_lookup (positions : list Vector3.t) (n k : nat) :
  k < 3 →
  positionBuffer positions !! (n * 3 + k)
    = (λ v, match k with
            | 0 => Vector3.x v
            | 1 => Vector3.y v
            | _ => Vector3.z v
            end) <$> positions !! n.
Proof.
  intros Hk. unfold positionBuffer. revert n.
  induction positions as [|v positions IH]; intros n.
  - by rewrite !lookup_nil.
  - destruct n as [|n]; simpl.
    + by destruct k as [|[|[|k]]]; [..|lia].
    + apply IH.
Qed.

(** X8 — Reading vertex [n] from the flat buffer of a list of positions
    gives the n-th position; an index past the buffer, like an [undefined]
    index, gives the origin instead of failing. *)
Theorem getVertexFromIndexBuffer_positionBuffer (positions : list Vector3.t) (i : index) :
  getVertexFromIndexBuffer i (positionBuffer positions)
    = match i with
      | Idx n => default (Vector3.new 0 0 0) (positions !! n)
      | Undef => Vector3.new 0 0 0
      end.
Proof.
  destruct i as [n|]; [|done].
  unfold getVertexFromIndexBuffer, coordinate.
  rewrite !positionBuffer_lookup by lia.
  by destruct (positions !! n) as [[x y z]|].
Qed.

(** ** fillOutMergeMap *)

Lemma assignKeys_defined (mergeMap : gmap index (list index)) (keys : list nat)
    (newMergeMap : gmap index nat) (a : index) :
  is_Some (newMergeMap !! a)
  ∨ (∃ key, key ∈ keys ∧ a ∈ default [] (mergeMap !! Idx key)) →
  is_Some (foldl (λ m key, assignKey key m (default [] (mergeMap !! Idx key)))
                 newMergeMap keys !! a).
Proof.
  revert newMergeMap. induction keys as [|key keys IH]; intros newMergeMap; simpl.
  - intros [Hsome|(key & Hkey & _)]; [done|]. by apply elem_of_nil in Hkey.
  - intros Hcase. apply IH. rewrite assignKey_lookup.
    destruct (decide (a ∈ default [] (mergeMap !! Idx key))) as [Hin|Hout]; [by left|].
    destruct Hcase as [Hsome|(key' & [->|Hkey']%elem_of_cons & Hin')]; [by left|done|].
    right. eauto.
Qed.

(** X1 — [fillOutMergeMap] throws exactly when the merge map has the key
    "undefined" (its number is NaN, under which the map holds nothing to
    iterate over); on every other map it returns a table. *)
Theorem fillOutMergeMap_throws (mergeMap : gmap index (list index)) :
  (fillOutMergeMap mergeMap = Throws TypeError ↔ is_Some (mergeMap !! Undef))
  ∧ (mergeMap !! Undef = None → ∃ table, fillOutMergeMap mergeMap = Returns table).
Proof.
  unfold fillOutMergeMap, Object_keys. rewrite fillOutKeys_numeric.
  destruct (decide (is_Some (mergeMap !! Undef))) as [Hsome|Hnone]; simpl.
  - split; [done|]. intros Hnone. rewrite Hnone in Hsome. by destruct Hsome.
  - split; [|eauto]. split; [discriminate|done].
Qed.

(** X2 — For a merge map whose keys are array indices (below 2^32 - 1, so
    that [Object.keys] lists them in ascending order), the table
    [fillOutMergeMap] returns sends [a] to [b] exactly when [b] is the
    greatest key of the merge map whose list holds [a]: every element of
    every list gets an entry, and of several keys the greatest wins. *)
Theorem fillOutMergeMap_lookup (mergeMap : gmap index (list index))
    (table : gmap index nat) (a : index) (b : nat) :
  array_indexed mergeMap →
  fillOutMergeMap mergeMap = Returns table →
  table !! a = Some b
  ↔ (∃ l, mergeMap !! Idx b = Some l ∧ a ∈ l)
    ∧ (∀ b' l', mergeMap !! Idx b' = Some l' → a ∈ l' → b' ≤ b).
Proof.
  intros _ Htable. split.
  - intros Hb.
    destruct (fillOutMergeMap_greatest _ _ _ _ Htable Hb) as (l & Hl & Hin & Hgreatest).
    eauto.
  - intros [(l & Hl & Hin) Hgreatest].
    assert (is_Some (table !! a)) as [c Hc].
    { revert Htable. unfold fillOutMergeMap, Object_keys. rewrite fillOutKeys_numeric.
      destruct (decide (is_Some (mergeMap !! Undef))); simpl; [discriminate|].
      intros [= <-]. apply assignKeys_defined. right. exists b. split.
      - rewrite merge_sort_Permutation, numericKeys_elem. eauto.
      - by rewrite Hl. }
    destruct (fillOutMergeMap_greatest _ _ _ _ Htable Hc) as (l' & Hl' & Hin' & Hgreatest').
    specialize (Hgreatest _ _ Hl' Hin'). specialize (Hgreatest' _ _ Hl Hin).
    rewrite Hc. f_equal. lia.
Qed.

(** The example of the source's comment: [0: [1, 2, 3]] makes 1, 2 and 3
    all replaced with 0. *)
Lemma fillOutMergeMap_lookup_witness :
  array_indexed ({[ Idx 0 := [Idx 1; Idx 2; Idx 3] ]} : gmap index (list index))
  ∧ fillOutMergeMap {[ Idx 0 := [Idx 1; Idx 2; Idx 3] ]}
    = Returns {[ Idx 1 := 0; Idx 2 := 0; Idx 3 := 0 ]}
  ∧ ((({[ Idx 1 := 0; Idx 2 := 0; Idx 3 := 0 ]} : gmap index nat) !! Idx 2 = Some 0)
     ↔ (∃ l, ({[ Idx 0 := [Idx 1; Idx 2; Idx 3] ]} : gmap index (list index)) !! Idx 0
               = Some l ∧ Idx 2 ∈ l)
       ∧ (∀ b' l',
            ({[ Idx 0 := [Idx 1; Idx 2; Idx 3] ]} : gmap index (list index)) !! Idx b'
              = Some l' →
            Idx 2 ∈ l' → b' ≤ 0)).
Proof.
  assert (fillOutMergeMap {[ Idx 0 := [Idx 1; Idx 2; Idx 3] ]}
          = Returns {[ Idx 1 := 0; Idx 2 := 0; Idx 3 := 0 ]}) as Htable
    by (vm_compute; reflexivity).
  assert (array_indexed ({[ Idx 0 := [Idx 1; Idx 2; Idx 3] ]} : gmap index (list index)))
    as Hkeys.
  { intros n l. destruct n as [|n]; [intros _; unfold array_index; lia|].
    by rewrite lookup_singleton_ne. }
  split; [exact Hkeys|]. split; [exact Htable|].
  exact (fillOutMergeMap_lookup _ _ (Idx 2) 0 Hkeys Htable).
Defined.

(** ** Buffers in which nothing is selected *)

Lemma weldVertices_no_pairs (cos_libm : float → float) (vertices : list float)
    (indices : list nat) (thresholdAngle : float) :
  computeEdgesToMerge cos_libm vertices indices thresholdAngle = [] →
  weldVertices cos_libm vertices indices thresholdAngle = Returns indices.
Proof. intros Hnone. apply weldVertices_welded. by rewrite Hnone. Qed.

Lemma float_ltb_nan (d : float) : (PrimFloat.nan <? d)%float = false.
Proof. rewrite FloatAxioms.ltb_spec. reflexivity. Qed.

Lemma matchAll_nan (vertices : list float) (tris : list triangle) (st : matcher_state) :
  (matchAll vertices PrimFloat.nan tris st).2 = st.2.
Proof.
  unfold matchAll. revert st. induction tris as [|[[ia ib] ic] tris IH]; intros st; [done|].
  simpl. rewrite IH. unfold matchTriangle. destruct (degenerate _ _); [done|].
  assert (∀ n (st : matcher_state) h0 h1 i0 i1,
            (matchEdge PrimFloat.nan n st h0 h1 i0 i1).2 = st.2) as Hedge.
  { intros n [edgeData l] h0 h1 i0 i1. unfold matchEdge.
    destruct (edgeData !! (h1, h0)) as [[d|]|]; simpl.
    - by rewrite float_ltb_nan.
    - by destruct (edgeData !! (h0, h1)).
    - by destruct (edgeData !! (h0, h1)). }
  by rewrite !Hedge.
Qed.

(** X6 — A threshold angle that is NaN or infinite welds nothing: its
    cosine is NaN, no dot product compares greater than NaN, and the buffer
    comes back unchanged, whatever the mesh. *)
Theorem weldVertices_threshold_not_finite (cos_libm : float → float)
    (vertices : list float) (indices : list nat) :
  weldVertices cos_libm vertices indices PrimFloat.nan = Returns indices
  ∧ weldVertices cos_libm vertices indices PrimFloat.infinity = Returns indices
  ∧ weldVertices cos_libm vertices indices PrimFloat.neg_infinity = Returns indices.
Proof.
  assert (∀ t, thresholdDotOf cos_libm t = PrimFloat.nan →
               weldVertices cos_libm vertices indices t = Returns indices) as Hnan.
  { intros t Ht. apply weldVertices_no_pairs. unfold computeEdgesToMerge.
    by rewrite Ht, matchAll_nan. }
  repeat split; apply Hnan; vm_compute; reflexivity.
Qed.

Lemma coordinate_out_of_range (vertices : list float) (i : index) (k : nat) :
  (∀ n, i = Idx n → length vertices ≤ 3 * n) → coordinate vertices i k = 0%float.
Proof.
  intros Hi. destruct i as [n|]; [|done]. unfold coordinate.
  rewrite lookup_ge_None_2; [done|]. specialize (Hi n eq_refl). lia.
Qed.

(** X7 — When every index of the buffer lies past the position buffer
    (an empty position buffer, for one), every corner reads as the origin,
    every triangle is degenerate, and the buffer comes back unchanged. *)
Theorem weldVertices_positions_missing (cos_libm : float → float)
    (vertices : list float) (indices : list nat) (thresholdAngle : float) :
  (∀ n, n ∈ indices → length vertices ≤ 3 * n) →
  weldVertices cos_libm vertices indices thresholdAngle = Returns indices.
Proof.
  intros Hmissing. apply weldVertices_no_pairs. unfold computeEdgesToMerge, matchAll.
  assert (Forall (corners (λ i, ∀ n, i = Idx n → length vertices ≤ 3 * n))
                 (triangles indices)) as Htris.
  { eapply Forall_impl; [apply triangles_from_buffer|].
    intros [[ia ib] ic] (Ha & Hb & Hc).
    repeat split; simpl in *; intros n Hn; apply Hmissing; auto. }
  enough (∀ st : matcher_state,
            foldl (matchTriangle vertices (thresholdDotOf cos_libm thresholdAngle))
                  st (triangles indices) = st) as Hskip by (by rewrite Hskip).
  induction Htris as [|[[ia ib] ic] tris (Ha & Hb & _) _ IH]; intros st; [done|].
  simpl. rewrite matchTriangle_degenerate; [apply IH|].
  unfold degenerate, getVertexFromIndexBuffer. simpl in Ha, Hb.
  rewrite !(coordinate_out_of_range vertices ia), !(coordinate_out_of_range vertices ib)
    by done.
  by rewrite bool_decide_eq_true_2.
Qed.

Lemma weldVertices_positions_missing_witness :
  weldVertices cos_series [] [0; 1; 2; 2; 1; 3] 1 = Returns [0; 1; 2; 2; 1; 3].
Proof.
  apply weldVertices_positions_missing.
  intros n _. simpl. lia.
Defined.

(** ** What the Edge Matcher selects *)

Lemma degenerate_false (vertices : list float) (ia ib ic : index) :
  degenerate vertices (ia, ib, ic) = false →
  hashOf vertices ia ≠ hashOf vertices ib
  ∧ hashOf vertices ib ≠ hashOf vertices ic
  ∧ hashOf vertices ic ≠ hashOf vertices ia.
Proof.
  unfold degenerate, hashOf.
  intros [[H01 H12]%orb_false_elim H20]%orb_false_elim.
  by apply bool_decide_eq_false in H01, H12, H20.
Qed.

Lemma sides_elem (ia ib ic : index) (e : edge) :
  e ∈ sides (ia, ib, ic) ↔ e = (ia, ib) ∨ e = (ib, ic) ∨ e = (ic, ia).
Proof.
  unfold sides. rewrite !elem_of_cons, elem_of_nil. tauto.
Qed.

(** A side of a triangle that is not degenerate joins two positions, and
    no other side of the triangle runs between them the other way. *)
Lemma sides_distinct (vertices : list float) (t : triangle) (e : edge) :
  degenerate vertices t = false → e ∈ sides t →
  hashOf vertices e.1 ≠ hashOf vertices e.2.
Proof.
  destruct t as [[ia ib] ic]. intros (H01 & H12 & H20)%degenerate_false.
  rewrite sides_elem. intros [->|[->| ->]]; done.
Qed.

Lemma sides_no_reverse (vertices : list float) (t : triangle) (e e' : edge) :
  degenerate vertices t = false → e ∈ sides t → e' ∈ sides t →
  hashOf vertices e'.1 = hashOf vertices e.2 →
  hashOf vertices e'.2 = hashOf vertices e.1 → False.
Proof.
  destruct t as [[ia ib] ic]. intros (H01 & H12 & H20)%degenerate_false.
  rewrite !sides_elem.
  intros [->|[->| ->]] [->|[->| ->]]; simpl; congruence.
Qed.

Lemma matchEdge_scan (vertices : list float) (thresholdDot : float) (_normal : Vector3.t)
    (scanned : list triangle) (t : triangle) (st : matcher_state) (i0 i1 : index) :
  degenerate vertices t = false → (i0, i1) ∈ sides t →
  scan_ok vertices scanned (Some t) st →
  scan_ok vertices scanned (Some t)
          (matchEdge thresholdDot _normal st
                     (hashOf vertices i0) (hashOf vertices i1) i0 i1).
Proof.
  intros Ht Hside. destruct st as [edgeData l]. intros [Hstored Hpairs].
  simpl in Hstored, Hpairs. unfold matchEdge.
  destruct (edgeData !! (hashOf vertices i1, hashOf vertices i0))
    as [[sibling|]|] eqn:Hsibling.
  - split; simpl.
    + intros key d. rewrite lookup_insert. case_decide; [discriminate|apply Hstored].
    + destruct (_ <? _)%float; [|done]. apply Forall_app. split; [done|].
      constructor; [|constructor].
      destruct (Hstored _ _ Hsibling) as [Hkey Hfrom].
      pose proof (f_equal fst Hkey) as H1. pose proof (f_equal snd Hkey) as H0.
      cbn [fst snd] in H1, H0. clear Hkey.
      split.
      * unfold coincident. simpl. split; [done|]. split; [done|].
        rewrite <- H1, <- H0. intros Heq.
        by apply (sides_distinct vertices t (i0, i1) Ht Hside).
      * destruct Hfrom as [(k & t' & Hk & Hside')|(t' & [= <-] & Hside')].
        -- exists k, (length scanned), t', t. simpl.
           split; [by eapply lookup_lt_Some|].
           split; [by apply lookup_app_l_Some|].
           split; [|done]. by rewrite lookup_app_r, Nat.sub_diag.
        -- destruct (sides_no_reverse vertices t (i0, i1) (index0 sibling, index1 sibling)
                       Ht Hside Hside'); simpl; done.
  - destruct (edgeData !! (hashOf vertices i0, hashOf vertices i1)) eqn:Hown;
      [done|]. split; [|done]. simpl.
    intros key d. rewrite lookup_insert. case_decide as Hkey; [|apply Hstored].
    intros [= <-]. simpl. split; [done|]. right. eauto.
  - destruct (edgeData !! (hashOf vertices i0, hashOf vertices i1)) eqn:Hown;
      [done|]. split; [|done]. simpl.
    intros key d. rewrite lookup_insert. case_decide as Hkey; [|apply Hstored].
    intros [= <-]. simpl. split; [done|]. right. eauto.
Qed.

Lemma scan_ok_enter (vertices : list float) (scanned : list triangle) (t : triangle)
    (st : matcher_state) :
  scan_ok vertices scanned None st → scan_ok vertices scanned (Some t) st.
Proof.
  intros [Hstored Hpairs]. split.
  - intros key d Hd. destruct (Hstored _ _ Hd) as [Hkey [Hfrom|(t' & [=] & _)]]. eauto.
  - eapply Forall_impl; [exact Hpairs|]. simpl. rewrite app_nil_r.
    intros p [Hco (k1 & k2 & t1 & t2 & Hlt & H1 & H2 & Hs1 & Hs2)]. split; [done|].
    exists k1, k2, t1, t2. repeat split; try done; by apply lookup_app_l_Some.
Qed.

Lemma scan_ok_leave (vertices : list float) (scanned : list triangle) (t : triangle)
    (st : matcher_state) :
  scan_ok vertices scanned (Some t) st → scan_ok vertices (scanned ++ [t]) None st.
Proof.
  intros [Hstored Hpairs]. split.
  - intros key d Hd.
    destruct (Hstored _ _ Hd) as [Hkey [(k & t' & Hk & Hside)|(t' & [= <-] & Hside)]];
      (split; [done|]); left.
    + exists k, t'. split; [by apply lookup_app_l_Some|done].
    + exists (length scanned), t. split; [|done].
      by rewrite lookup_app_r, Nat.sub_diag.
  - eapply Forall_impl; [exact Hpairs|]. simpl. by rewrite app_nil_r.
Qed.

Lemma matchTriangle_scan (vertices : list float) (thresholdDot : float)
    (scanned : list triangle) (t : triangle) (st : matcher_state) :
  scan_ok vertices scanned None st →
  scan_ok vertices (scanned ++ [t]) None (matchTriangle vertices thresholdDot st t).
Proof.
  intros Hst%(scan_ok_enter _ _ t). apply scan_ok_leave.
  destruct t as [[ia ib] ic]. unfold matchTriangle.
  destruct (degenerate vertices (ia, ib, ic)) eqn:Ht; [done|].
  apply (matchEdge_scan vertices thresholdDot _ scanned (ia, ib, ic) _ ic ia Ht);
    [apply sides_elem; tauto|].
  apply (matchEdge_scan vertices thresholdDot _ scanned (ia, ib, ic) _ ib ic Ht);
    [apply sides_elem; tauto|].
  apply (matchEdge_scan vertices thresholdDot _ scanned (ia, ib, ic) _ ia ib Ht);
    [apply sides_elem; tauto|done].
Qed.

Lemma matchAll_scan (vertices : list float) (thresholdDot : float)
    (scanned tris : list triangle) (st : matcher_state) :
  scan_ok vertices scanned None st →
  scan_ok vertices (scanned ++ tris) None (matchAll vertices thresholdDot tris st).
Proof.
  unfold matchAll. revert scanned st.
  induction tris as [|t tris IH]; intros scanned st Hst; simpl.
  - by rewrite app_nil_r.
  - replace (scanned ++ t :: tris) with ((scanned ++ [t]) ++ tris)
      by (by rewrite <- (assoc_L (++))).
    by apply IH, matchTriangle_scan.
Qed.

Lemma computeEdgesToMerge_scan (cos_libm : float → float) (vertices : list float)
    (indices : list nat) (thresholdAngle : float) :
  Forall (λ p, coincident vertices p ∧ joins (triangles indices) p)
         (computeEdgesToMerge cos_libm vertices indices thresholdAngle).
Proof.
  unfold computeEdgesToMerge.
  destruct (matchAll_scan vertices (thresholdDotOf cos_libm thresholdAngle)
              [] (triangles indices) (∅, [])) as [_ Hpairs].
  - split; [|constructor]. intros key d. simpl. by rewrite lookup_empty.
  - simpl in Hpairs. eapply Forall_impl; [exact Hpairs|]. simpl.
    intros p. by rewrite app_nil_r.
Qed.

(** X3 — Every pair the Edge Matcher selects is made of a side of one
    triangle and a side of a later triangle of the buffer that lie on the
    same two positions in opposite directions, and these two positions
    differ. *)
Theorem computeEdgesToMerge_siblings (cos_libm : float → float) (vertices : list float)
    (indices : list nat) (thresholdAngle : float) (p : edge_pair) :
  p ∈ computeEdgesToMerge cos_libm vertices indices thresholdAngle →
  coincident vertices p ∧ joins (triangles indices) p.
Proof.
  revert p. apply Forall_forall, computeEdgesToMerge_scan.
Qed.

Lemma computeEdgesToMerge_siblings_witness :
  coincident scenarioA_vertices ((Idx 1, Idx 2), (Idx 5, Idx 3))
  ∧ joins (triangles scenarioA_indices) ((Idx 1, Idx 2), (Idx 5, Idx 3)).
Proof.
  apply (computeEdgesToMerge_siblings cos_series scenarioA_vertices scenarioA_indices 1).
  rewrite scenarioA_pairs by (vm_compute; reflexivity).
  apply list_elem_of_singleton. reflexivity.
Defined.

(** X5 — A buffer of at most one triangle (three indices or fewer) comes
    back unchanged, whatever the positions and the threshold: a pair needs
    two triangles. *)
Theorem weldVertices_single_triangle (cos_libm : float → float) (vertices : list float)
    (indices : list nat) (thresholdAngle : float) :
  length indices ≤ 3 →
  weldVertices cos_libm vertices indices thresholdAngle = Returns indices.
Proof.
  intros Hlen. apply weldVertices_no_pairs.
  pose proof (computeEdgesToMerge_scan cos_libm vertices indices thresholdAngle) as Hpairs.
  destruct (computeEdgesToMerge _ _ _ _) as [|p pairs]; [done|].
  apply Forall_cons_1 in Hpairs as [[_ (k1 & k2 & t1 & t2 & Hlt & _ & H2 & _)] _].
  apply lookup_lt_Some in H2. rewrite triangles_length in H2.
  assert ((length indices + 2) `div` 3 ≤ 5 `div` 3) as Hone
    by (apply Nat.Div0.div_le_mono; lia).
  change (5 `div` 3) with 1 in Hone. lia.
Qed.

Lemma weldVertices_single_triangle_witness :
  weldVertices cos_series [0; 0; 0; 1; 0; 0; 0; 1; 0]%float [0; 1; 2] 1
    = Returns [0; 1; 2].
Proof. apply weldVertices_single_triangle. simpl. lia. Defined.

(** ** What the Index Rewriter changes *)

(** X10 — Where the returned buffer differs from the input, both the index
    replaced and the index it is replaced by are endpoints of selected
    pairs: an index no selected pair mentions is left as it is. *)
Theorem weldVertices_changes_endpoints (cos_libm : float → float) (vertices : list float)
    (indices : list nat) (thresholdAngle : float) (out : list nat) (k n m : nat) :
  weldVertices cos_libm vertices indices thresholdAngle = Returns out →
  indices !! k = Some n → out !! k = Some m → m ≠ n →
  (∃ p, p ∈ computeEdgesToMerge cos_libm vertices indices thresholdAngle
        ∧ Idx n ∈ endpoints p)
  ∧ (∃ p, p ∈ computeEdgesToMerge cos_libm vertices indices thresholdAngle
          ∧ Idx m ∈ endpoints p).
Proof.
  intros (table & Htable & ->)%weldVertices_returns_inv Hn.
  rewrite list_lookup_fmap, Hn. simpl. intros [= <-]. unfold newIndexOf.
  destruct (table !! Idx n) as [b|] eqn:Hb; simpl; [intros _|done].
  destruct (fillOutMergeMap_sound _ _ _ _ Htable Hb) as (l & Hl & Hin).
  set (pairs := computeEdgesToMerge cos_libm vertices indices thresholdAngle).
  set (P := λ i : index, ∃ p, p ∈ pairs ∧ i ∈ endpoints p).
  assert (weld_ok P (weldState cos_libm vertices indices thresholdAngle))
    as (Hmerged & _ & _).
  { unfold weldState. apply weldLoop_ok. split; [|split]; simpl.
    - intros key l'. by rewrite lookup_empty.
    - intros key v. by rewrite lookup_empty.
    - apply edgesToMergeMapOf_ok. apply Forall_forall. intros p Hp.
      unfold pair_ok, edge_ok, P, endpoints.
      repeat split; exists p; (split; [exact Hp|]);
        rewrite !elem_of_cons; tauto. }
  destruct (Hmerged _ _ Hl) as [Hkey Hlist].
  split; [|exact Hkey]. rewrite Forall_forall in Hlist. by apply Hlist.
Qed.

Lemma weldVertices_changes_endpoints_witness :
  (∃ p, p ∈ computeEdgesToMerge cos_series scenarioA_vertices scenarioA_indices 1
        ∧ Idx 3 ∈ endpoints p)
  ∧ (∃ p, p ∈ computeEdgesToMerge cos_series scenarioA_vertices scenarioA_indices 1
          ∧ Idx 1 ∈ endpoints p).
Proof.
  apply (weldVertices_changes_endpoints cos_series scenarioA_vertices scenarioA_indices 1
           [0; 1; 2; 1; 4; 2] 3 3 1).
  - vm_compute. reflexivity.
  - reflexivity.
  - reflexivity.
  - lia.
Defined.

(** ** A stored edge is matched once *)

(** The keys of the pairs selected so far are those set to [null], so
    that no two pairs have the same key. *)
Lemma matchEdge_once (vertices : list float) (thresholdDot : float) (_normal : Vector3.t)
    (scanned : list triangle) (current : option triangle) (st : matcher_state)
    (vecHash0 vecHash1 : hash) (i0 i1 : index) :
  stored_ok vertices scanned current st.1 →
  NoDup (pairKey vertices <$> st.2)
  ∧ (∀ p, p ∈ st.2 → st.1 !! pairKey vertices p = Some None) →
  let st' := matchEdge thresholdDot _normal st vecHash0 vecHash1 i0 i1 in
  NoDup (pairKey vertices <$> st'.2)
  ∧ (∀ p, p ∈ st'.2 → st'.1 !! pairKey vertices p = Some None).
Proof.
  destruct st as [edgeData l]. simpl. intros Hstored [Hnodup Hnull]. unfold matchEdge.
  destruct (edgeData !! (vecHash1, vecHash0)) as [[sibling|]|] eqn:Hsibling.
  - destruct (Hstored _ _ Hsibling) as [Hkey _].
    assert (∀ p, p ∈ l → <[(vecHash1, vecHash0) := None]> edgeData !! pairKey vertices p
                         = Some None) as Hnull'.
    { intros p Hp. rewrite lookup_insert. case_decide; [done|by apply Hnull]. }
    destruct (_ <? _)%float; simpl; [|done]. split.
    + rewrite fmap_app. apply NoDup_app. split; [done|]. split; [|apply NoDup_singleton].
      intros key (p & -> & Hp)%list_elem_of_fmap Hnew.
      apply list_elem_of_singleton in Hnew. unfold pairKey in Hnew at 2. simpl in Hnew.
      specialize (Hnull _ Hp). rewrite Hnew, <- Hkey, Hsibling in Hnull. discriminate.
    + intros p [Hp| ->%list_elem_of_singleton]%elem_of_app; [by apply Hnull'|].
      unfold pairKey. simpl. by rewrite <- Hkey, lookup_insert_eq.
  - destruct (edgeData !! (vecHash0, vecHash1)) eqn:Hown; [done|]. simpl.
    split; [done|]. intros p Hp. rewrite lookup_insert_ne; [by apply Hnull|].
    intros Heq. specialize (Hnull _ Hp). rewrite <- Heq, Hown in Hnull. discriminate.
  - destruct (edgeData !! (vecHash0, vecHash1)) eqn:Hown; [done|]. simpl.
    split; [done|]. intros p Hp. rewrite lookup_insert_ne; [by apply Hnull|].
    intros Heq. specialize (Hnull _ Hp). rewrite <- Heq, Hown in Hnull. discriminate.
Qed.

Lemma matchTriangle_once (vertices : list float) (thresholdDot : float)
    (scanned : list triangle) (t : triangle) (st : matcher_state) :
  scan_ok vertices scanned None st →
  NoDup (pairKey vertices <$> st.2)
  ∧ (∀ p, p ∈ st.2 → st.1 !! pairKey vertices p = Some None) →
  let st' := matchTriangle vertices thresholdDot st t in
  NoDup (pairKey vertices <$> st'.2)
  ∧ (∀ p, p ∈ st'.2 → st'.1 !! pairKey vertices p = Some None).
Proof.
  intros Hst%(scan_ok_enter _ _ t) Honce. simpl.
  destruct t as [[ia ib] ic]. unfold matchTriangle.
  destruct (degenerate vertices (ia, ib, ic)) eqn:Ht; [done|].
  fold (hashOf vertices ia). fold (hashOf vertices ib). fold (hashOf vertices ic).
  set (n := getNormal _ _ _).
  pose proof (matchEdge_scan vertices thresholdDot n scanned (ia, ib, ic) st ia ib Ht
                ltac:(apply sides_elem; tauto) Hst) as Hst1.
  pose proof (matchEdge_once vertices thresholdDot n scanned (Some (ia, ib, ic)) st
                (hashOf vertices ia) (hashOf vertices ib) ia ib (proj1 Hst) Honce)
    as Honce1.
  simpl in Honce1.
  set (st1 := matchEdge thresholdDot n st _ _ ia ib) in *.
  pose proof (matchEdge_scan vertices thresholdDot n scanned (ia, ib, ic) st1 ib ic Ht
                ltac:(apply sides_elem; tauto) Hst1) as Hst2.
  pose proof (matchEdge_once vertices thresholdDot n scanned (Some (ia, ib, ic)) st1
                (hashOf vertices ib) (hashOf vertices ic) ib ic (proj1 Hst1) Honce1)
    as Honce2.
  simpl in Honce2.
  set (st2 := matchEdge thresholdDot n st1 _ _ ib ic) in *.
  exact (matchEdge_once vertices thresholdDot n scanned (Some (ia, ib, ic)) st2
           (hashOf vertices ic) (hashOf vertices ia) ic ia (proj1 Hst2) Honce2).
Qed.

Lemma matchAll_once (vertices : list float) (thresholdDot : float)
    (scanned tris : list triangle) (st : matcher_state) :
  scan_ok vertices scanned None st →
  NoDup (pairKey vertices <$> st.2)
  ∧ (∀ p, p ∈ st.2 → st.1 !! pairKey vertices p = Some None) →
  NoDup (pairKey vertices <$> (matchAll vertices thresholdDot tris st).2).
Proof.
  unfold matchAll. revert scanned st.
  induction tris as [|t tris IH]; intros scanned st Hst Honce; simpl.
  - by destruct Honce.
  - apply (IH (scanned ++ [t])); [by apply matchTriangle_scan|].
    by apply (matchTriangle_once vertices thresholdDot scanned t st).
Qed.

(** X4 — No two selected pairs have their first edge on the same two
    positions in the same direction: an edge that has found its sibling is
    set to [null] in [edgeData], and is neither matched nor stored again. *)
Theorem computeEdgesToMerge_once (cos_libm : float → float) (vertices : list float)
    (indices : list nat) (thresholdAngle : float) :
  NoDup (pairKey vertices
           <$> computeEdgesToMerge cos_libm vertices indices thresholdAngle).
Proof.
  unfold computeEdgesToMerge. apply (matchAll_once vertices _ []).
  - split; [|constructor]. intros key d. simpl. by rewrite lookup_empty.
  - split; [constructor|]. simpl. intros p Hp. by apply elem_of_nil in Hp.
Qed.

(** ** How many pairs can be selected *)

Lemma liveEdges_empty : liveEdges ∅ = 0.
Proof. unfold liveEdges. by rewrite map_filter_empty, map_size_empty. Qed.

Lemma liveEdges_consume (edgeData : edge_table) (key : hash * hash) (d : EdgeData) :
  edgeData !! key = Some (Some d) →
  S (liveEdges (<[key := None]> edgeData)) = liveEdges edgeData.
Proof.
  intros Hd. unfold liveEdges.
  rewrite map_filter_insert_False by (simpl; by intros [? [=]]).
  rewrite map_filter_delete.
  assert (filter (λ kv : hash * hash * option EdgeData, is_Some kv.2) edgeData !! key
          = Some (Some d)) as Hlive by (apply map_lookup_filter_Some_2; [done|by eexists]).
  rewrite map_size_delete_Some by by eexists.
  assert (size (filter (λ kv : hash * hash * option EdgeData, is_Some kv.2) edgeData) ≠ 0);
    [|lia].
  intros Hempty%map_size_empty_iff. by rewrite Hempty, lookup_empty in Hlive.
Qed.

Lemma liveEdges_store (edgeData : edge_table) (key : hash * hash) (d : EdgeData) :
  edgeData !! key = None →
  liveEdges (<[key := Some d]> edgeData) = S (liveEdges edgeData).
Proof.
  intros Hnone. unfold liveEdges.
  rewrite map_filter_insert_True by (simpl; by eexists).
  apply map_size_insert_None. by rewrite map_lookup_filter_None_2; [|left].
Qed.

(** Each edge looked at adds at most one to twice the number of pairs plus
    the number of stored edges still waiting for a sibling. *)
Lemma matchEdge_count (thresholdDot : float) (_normal : Vector3.t) (st : matcher_state)
    (vecHash0 vecHash1 : hash) (i0 i1 : index) :
  let st' := matchEdge thresholdDot _normal st vecHash0 vecHash1 i0 i1 in
  2 * length st'.2 + liveEdges st'.1 ≤ S (2 * length st.2 + liveEdges st.1).
Proof.
  destruct st as [edgeData l]. simpl. unfold matchEdge.
  destruct (edgeData !! (vecHash1, vecHash0)) as [[sibling|]|] eqn:Hsibling.
  - apply liveEdges_consume in Hsibling.
    destruct (_ <? _)%float; simpl; rewrite ?length_app; simpl; lia.
  - destruct (edgeData !! (vecHash0, vecHash1)) eqn:Hown; simpl; [lia|].
    rewrite liveEdges_store by done. lia.
  - destruct (edgeData !! (vecHash0, vecHash1)) eqn:Hown; simpl; [lia|].
    rewrite liveEdges_store by done. lia.
Qed.

Lemma matchAll_count (vertices : list float) (thresholdDot : float)
    (tris : list triangle) (st : matcher_state) :
  let st' := matchAll vertices thresholdDot tris st in
  2 * length st'.2 + liveEdges st'.1
    ≤ 3 * length tris + (2 * length st.2 + liveEdges st.1).
Proof.
  simpl. unfold matchAll. revert st.
  induction tris as [|[[ia ib] ic] tris IH]; intros st; simpl; [lia|].
  etrans; [apply IH|].
  assert (2 * length (matchTriangle vertices thresholdDot st (ia, ib, ic)).2
          + liveEdges (matchTriangle vertices thresholdDot st (ia, ib, ic)).1
          ≤ 3 + (2 * length st.2 + liveEdges st.1)); [|lia].
  unfold matchTriangle. destruct (degenerate _ _); [lia|].
  set (n := getNormal _ _ _).
  set (h0 := hashVertex (getVertexFromIndexBuffer ia vertices)).
  set (h1 := hashVertex (getVertexFromIndexBuffer ib vertices)).
  set (h2 := hashVertex (getVertexFromIndexBuffer ic vertices)).
  pose proof (matchEdge_count thresholdDot n st h0 h1 ia ib) as H1. simpl in H1.
  set (st1 := matchEdge thresholdDot n st h0 h1 ia ib) in *.
  pose proof (matchEdge_count thresholdDot n st1 h1 h2 ib ic) as H2. simpl in H2.
  set (st2 := matchEdge thresholdDot n st1 h1 h2 ib ic) in *.
  pose proof (matchEdge_count thresholdDot n st2 h2 h0 ic ia) as H3. simpl in H3.
  lia.
Qed.

(** X11 — A buffer of [T] triangles gives at most [3T/2] pairs: each of
    the three sides of a triangle is either stored or matched with one
    stored side, which is then out of the table.  In terms of the buffer,
    twice the number of pairs is at most its length plus two. *)
Theorem computeEdgesToMerge_count (cos_libm : float → float) (vertices : list float)
    (indices : list nat) (thresholdAngle : float) :
  2 * length (computeEdgesToMerge cos_libm vertices indices thresholdAngle)
    ≤ 3 * length (triangles indices)
  ∧ 2 * length (computeEdgesToMerge cos_libm vertices indices thresholdAngle)
    ≤ length indices + 2.
Proof.
  assert (2 * length (computeEdgesToMerge cos_libm vertices indices thresholdAngle)
          ≤ 3 * length (triangles indices)) as Hcount.
  { unfold computeEdgesToMerge.
    pose proof (matchAll_count vertices (thresholdDotOf cos_libm thresholdAngle)
                  (triangles indices) (∅, [])) as Hcount.
    simpl in Hcount. rewrite liveEdges_empty in Hcount. lia. }
  split; [done|]. etrans; [exact Hcount|]. rewrite triangles_length.
  apply Nat.Div0.mul_div_le.
Qed.

(** ** The scan only appends *)

Lemma matchEdge_prefix (thresholdDot : float) (_normal : Vector3.t) (st : matcher_state)
    (vecHash0 vecHash1 : hash) (i0 i1 : index) :
  st.2 `prefix_of` (matchEdge thresholdDot _normal st vecHash0 vecHash1 i0 i1).2.
Proof.
  destruct st as [edgeData l]. simpl. unfold matchEdge.
  destruct (edgeData !! (vecHash1, vecHash0)) as [[sibling|]|].
  - destruct (_ <? _)%float; simpl; [by apply prefix_app_r|done].
  - by destruct (edgeData !! (vecHash0, vecHash1)).
  - by destruct (edgeData !! (vecHash0, vecHash1)).
Qed.

Lemma matchAll_prefix (vertices : list float) (thresholdDot : float)
    (tris : list triangle) (st : matcher_state) :
  st.2 `prefix_of` (matchAll vertices thresholdDot tris st).2.
Proof.
  unfold matchAll. revert st.
  induction tris as [|[[ia ib] ic] tris IH]; intros st; simpl; [done|].
  etrans; [|apply IH]. unfold matchTriangle. destruct (degenerate _ _); [done|].
  etrans; [|apply matchEdge_prefix]. etrans; [|apply matchEdge_prefix].
  apply matchEdge_prefix.
Qed.

(** X12 — Triangles appended to a buffer of whole triangles only append
    pairs: the pairs selected in the buffer are a prefix of those selected
    in the longer one. *)
Theorem computeEdgesToMerge_prefix (cos_libm : float → float) (vertices : list float)
    (pre post : list nat) (thresholdAngle : float) :
  length pre `mod` 3 = 0 →
  computeEdgesToMerge cos_libm vertices pre thresholdAngle
    `prefix_of` computeEdgesToMerge cos_libm vertices (pre ++ post) thresholdAngle.
Proof.
  intros Hlen. unfold computeEdgesToMerge.
  rewrite triangles_app, matchAll_app by done. apply matchAll_prefix.
Qed.

Lemma computeEdgesToMerge_prefix_witness :
  computeEdgesToMerge cos_series fan_vertices (take 6 fan_indices) 1
    `prefix_of` computeEdgesToMerge cos_series fan_vertices
                  (take 6 fan_indices ++ drop 6 fan_indices) 1.
Proof. apply computeEdgesToMerge_prefix. vm_compute. reflexivity. Defined.

(** * The traversal of OutlineEffect *)

Lemma visitObject_bound {Segmenter Mesh Attribute : Type}
    (getSurfaceIdAttribute : Segmenter → Mesh → outcome Attribute * Segmenter)
    (surfaceId : Segmenter → nat) (ids : Attribute → list nat)
    (tr : traversal) (object : option Mesh) :
  (∀ s mesh attr s', getSurfaceIdAttribute s mesh = (Returns attr, s') →
     ∀ id, id ∈ ids attr → id < surfaceId s') →
  (∀ attr id, Some attr ∈ colorAttributes tr → id ∈ ids attr → id < maxSurfaceId tr) →
  ∀ attr id,
    Some attr ∈ colorAttributes (visitObject getSurfaceIdAttribute surfaceId tr object) →
    id ∈ ids attr →
    id < maxSurfaceId (visitObject getSurfaceIdAttribute surfaceId tr object).
Proof.
  intros Hrange Htr attr id. unfold visitObject.
  destruct object as [mesh|]; simpl.
  - destruct (getSurfaceIdAttribute (findSurfaces tr) mesh) as [[attr'|e] s'] eqn:Hcall;
      simpl.
    + intros [Hold|[= <-]%list_elem_of_singleton]%elem_of_app Hid.
      * specialize (Htr _ _ Hold Hid). lia.
      * specialize (Hrange _ _ _ _ Hcall _ Hid). lia.
    + intros [Hold|[=]%list_elem_of_singleton]%elem_of_app Hid. by eapply Htr.
  - intros [Hold|[=]%list_elem_of_singleton]%elem_of_app Hid. by eapply Htr.
Qed.

Lemma traverseScene_ids {Segmenter Mesh Attribute : Type}
    (getSurfaceIdAttribute : Segmenter → Mesh → outcome Attribute * Segmenter)
    (surfaceId : Segmenter → nat) (ids : Attribute → list nat)
    (fresh : Segmenter) (objects : list (option Mesh)) :
  (∀ s mesh attr s', getSurfaceIdAttribute s mesh = (Returns attr, s') →
     ∀ id, id ∈ ids attr → id < surfaceId s') →
  ∀ attr id,
    Some attr ∈ colorAttributes (traverseScene getSurfaceIdAttribute surfaceId fresh objects) →
    id ∈ ids attr →
    id < maxSurfaceId (traverseScene getSurfaceIdAttribute surfaceId fresh objects).
Proof.
  intros Hrange. unfold traverseScene.
  assert (∀ attr id, Some attr ∈ colorAttributes (mkTraversal fresh 0 []) →
                     id ∈ ids attr →
                     id < maxSurfaceId (mkTraversal (Attribute := Attribute) fresh 0 []))
    as Hstart by (simpl; intros ? ? []%elem_of_nil).
  revert Hstart. generalize (mkTraversal (Attribute := Attribute) fresh 0 []).
  induction objects as [|object objects IH]; intros tr Htr; [done|].
  simpl. apply IH. by apply (visitObject_bound _ _ ids).
Qed.

(** X9 — When a call of the segmenter only hands out identifiers below
    the value its counter has afterwards, every identifier of every
    [color] attribute the traversal sets is below [maxSurfaceId], whatever
    calls failed in between; and, an identifier having been set, the pass
    is given [maxSurfaceId + 1]. *)
Theorem traverseScene_bound {Segmenter Mesh Attribute : Type}
    (getSurfaceIdAttribute : Segmenter → Mesh → outcome Attribute * Segmenter)
    (surfaceId : Segmenter → nat) (ids : Attribute → list nat)
    (fresh : Segmenter) (objects : list (option Mesh)) (attr : Attribute) (id : nat) :
  (∀ s mesh attr s', getSurfaceIdAttribute s mesh = (Returns attr, s') →
     ∀ id, id ∈ ids attr → id < surfaceId s') →
  Some attr ∈ colorAttributes (traverseScene getSurfaceIdAttribute surfaceId fresh objects) →
  id ∈ ids attr →
  id < maxSurfaceId (traverseScene getSurfaceIdAttribute surfaceId fresh objects)
  ∧ updatedMaxSurfaceId true (traverseScene getSurfaceIdAttribute surfaceId fresh objects)
    = Some (maxSurfaceId (traverseScene getSurfaceIdAttribute surfaceId fresh objects) + 1).
Proof.
  intros Hrange Hattr Hid.
  pose proof (traverseScene_ids _ _ ids fresh objects Hrange _ _ Hattr Hid) as Hbound.
  split; [done|]. unfold updatedMaxSurfaceId. simpl.
  destruct (Nat.ltb_spec 0 (maxSurfaceId
              (traverseScene getSurfaceIdAttribute surfaceId fresh objects))); [done|lia].
Qed.

Lemma traverseScene_bound_witness :
  4 < maxSurfaceId (traverseScene countingSegmenter id 0 [Some 2; None; Some 0; Some 3])
  ∧ updatedMaxSurfaceId true
      (traverseScene countingSegmenter id 0 [Some 2; None; Some 0; Some 3])
    = Some (maxSurfaceId
              (traverseScene countingSegmenter id 0 [Some 2; None; Some 0; Some 3]) + 1).
Proof.
  apply (traverseScene_bound countingSegmenter id id 0 [Some 2; None; Some 0; Some 3]
           [2; 3; 4] 4).
  - intros s mesh attr s'. unfold countingSegmenter.
    destruct (mesh =? 0); [discriminate|]. intros [= <- <-] i Hi.
    apply elem_of_seq in Hi. unfold id. lia.
  - vm_compute. do 3 right. left.
  - vm_compute. do 2 right. left.
Defined.

(** * The orientation test of the resolver *)

(** The pass of the loop over an edge that is the first edge of its pair,
    before anything was aliased: the ends of the other edge are exchanged
    when its first end is farther than 0.1 from the edge's first end. *)
Lemma mergeEdge_selected (vertices : list float) (st : weld_state) (i0 i1 i2 i3 : index) :
  edgesToMergeMap st !! (i1, i0) = None →
  edgesToMergeMap st !! (i0, i1) = Some ((i0, i1), (i2, i3)) →
  loose_eq i0 i2 && loose_eq i1 i3 = false →
  vertexAliases st = ∅ →
  mergeEdge vertices st (i0, i1) =
    let far := (one_tenth <? Vector3.distanceTo (getVertexFromIndexBuffer i0 vertices)
                                                (getVertexFromIndexBuffer i2 vertices))%float in
    let j2 := if far then i3 else i2 in
    let j3 := if far then i2 else i3 in
    {| mergedMap := merge (merge (mergedMap st) i0 j2) i1 j3;
       vertexAliases := aliasDeletedVertex (aliasDeletedVertex ∅ j2 i0) j3 i1;
       edgesToMergeMap := delete (j2, j3) (delete (i0, i1) (edgesToMergeMap st)) |}.
Proof.
  intros Hreverse Hkey Hdistinct Haliases. unfold mergeEdge.
  rewrite Hreverse. rewrite bool_decide_eq_false_2 by (by intros [? [=]]).
  rewrite Hkey. cbn [fst snd]. rewrite !loose_eq_refl. cbn [andb orb fst snd].
  rewrite Hdistinct, Haliases, !replaceDeleted_empty.
  destruct (_ <? _)%float; cbn zeta; rewrite !replaceDeleted_empty; reflexivity.
Qed.

(** X13 — Two triangles [0,1,2] and [3,4,5] whose one selected pair is
    the edge 1-2 with the edge 5-3, vertex 5 lying on vertex 2 and vertex 3
    on vertex 1.  When vertices 1 and 5, the two ends of the shared edge,
    are not more than 0.1 apart, the orientation test does not exchange
    the ends of the second edge and the vertices are welded crosswise:
    5 to 1 and 3 to 2, so that the second triangle comes back as [2,4,1]
    instead of [1,4,2].  Positions and threshold are arbitrary. *)
Theorem weldVertices_short_edge (cos_libm : float → float) (vertices : list float)
    (thresholdAngle : float) :
  computeEdgesToMerge cos_libm vertices [0; 1; 2; 3; 4; 5] thresholdAngle
    = [((Idx 1, Idx 2), (Idx 5, Idx 3))] →
  (one_tenth <? Vector3.distanceTo (getVertexFromIndexBuffer (Idx 1) vertices)
                                   (getVertexFromIndexBuffer (Idx 5) vertices))%float
    = false →
  weldVertices cos_libm vertices [0; 1; 2; 3; 4; 5] thresholdAngle
    = Returns [0; 1; 2; 2; 4; 1].
Proof.
  intros Hpairs Hshort. unfold weldVertices, finalMergeMap, weldState. rewrite Hpairs.
  set (st := mkWeldState ∅ ∅ (edgesToMergeMapOf [((Idx 1, Idx 2), (Idx 5, Idx 3))])).
  replace (triangles [0; 1; 2; 3; 4; 5])
    with [(Idx 0, Idx 1, Idx 2); (Idx 3, Idx 4, Idx 5)] by (vm_compute; reflexivity).
  unfold weldLoop. cbn [foldl]. unfold weldTriangle at 2. cbn [foldl triangleEdges].
  assert (mergeEdge vertices st (Idx 0, Idx 1) = st) as -> by (vm_compute; reflexivity).
  assert (mergeEdge vertices st (Idx 0, Idx 2) = st) as -> by (vm_compute; reflexivity).
  rewrite (mergeEdge_selected vertices st (Idx 1) (Idx 2) (Idx 5) (Idx 3))
    by (vm_compute; reflexivity).
  cbn zeta. rewrite Hshort. vm_compute. reflexivity.
Qed.

Lemma weldVertices_short_edge_witness :
  weldVertices cos_series sixteenth_vertices [0; 1; 2; 3; 4; 5] 1
    = Returns [0; 1; 2; 2; 4; 1].
Proof.
  apply weldVertices_short_edge; vm_compute; reflexivity.
Defined.

(** * The hook useSurfaceIds and the traversal of OutlineEffect *)

Lemma traverse_appends {Segmenter Mesh Attribute : Type}
    (getSurfaceIdAttribute : Segmenter → Mesh → outcome Attribute * Segmenter)
    (surfaceId : Segmenter → nat) (objects : list (option Mesh)) (tr : traversal) :
  colorAttributes tr
    `prefix_of` colorAttributes (foldl (visitObject getSurfaceIdAttribute surfaceId)
                                       tr objects).
Proof.
  revert tr. induction objects as [|object objects IH]; intros tr; [done|].
  simpl. etrans; [|apply IH]. unfold visitObject.
  destruct object as [mesh|]; [|by apply prefix_app_r].
  destruct (getSurfaceIdAttribute (findSurfaces tr) mesh) as [[attr|e] s'];
    by apply prefix_app_r.
Qed.

Lemma traverseSceneFrom_prefix {Segmenter Mesh Attribute : Type}
    (getSurfaceIdAttribute : Segmenter → Mesh → outcome Attribute * Segmenter)
    (surfaceId : Segmenter → nat) (objects : list (option Mesh)) (tr : traversal) :
  colorAttributes (traverseSceneFrom getSurfaceIdAttribute surfaceId tr objects).2
    `prefix_of` colorAttributes (foldl (visitObject getSurfaceIdAttribute surfaceId)
                                       tr objects)
  ∧ ((traverseSceneFrom getSurfaceIdAttribute surfaceId tr objects).1 = Returns () →
     (traverseSceneFrom getSurfaceIdAttribute surfaceId tr objects).2
       = foldl (visitObject getSurfaceIdAttribute surfaceId) tr objects).
Proof.
  revert tr. induction objects as [|[mesh|] objects IH]; intros tr; simpl.
  - done.
  - destruct (getSurfaceIdAttribute (findSurfaces tr) mesh) as [[attr|e] s'] eqn:Hcall;
      simpl.
    + apply IH.
    + split; [|discriminate]. etrans; [|apply traverse_appends]. by apply prefix_app_r.
  - apply IH.
Qed.

(** X14 — On the same scene and with the same segmenter, the [color]
    attributes the hook [useSurfaceIds] has set when it stops are the first
    ones the traversal of [OutlineEffect] sets: the hook stops at the first
    failing mesh, [OutlineEffect] catches the failure and goes on.  When no
    call fails the two traversals end in the same state. *)
Theorem useSurfaceIds_prefix {Segmenter Mesh Attribute : Type}
    (getSurfaceIdAttribute : Segmenter → Mesh → outcome Attribute * Segmenter)
    (surfaceId : Segmenter → nat) (fresh : Segmenter) (objects : list (option Mesh)) :
  colorAttributes (useSurfaceIds getSurfaceIdAttribute surfaceId fresh objects).2
    `prefix_of` colorAttributes (traverseScene getSurfaceIdAttribute surfaceId fresh objects)
  ∧ ((useSurfaceIds getSurfaceIdAttribute surfaceId fresh objects).1 = Returns () →
     (useSurfaceIds getSurfaceIdAttribute surfaceId fresh objects).2
       = traverseScene getSurfaceIdAttribute surfaceId fresh objects).
Proof. apply traverseSceneFrom_prefix. Qed.

(** * The angle test of the Edge Matcher *)

Lemma clone_id (v : Vector3.t) : Vector3.clone v = v.
Proof. by destruct v. Qed.

Lemma matchTriangle_sides (vertices : list float) (thresholdDot : float)
    (st : matcher_state) (t : triangle) :
  degenerate vertices t = false →
  matchTriangle vertices thresholdDot st t
    = foldl (matchSide vertices thresholdDot t) st (sides t).
Proof.
  destruct t as [[ia ib] ic]. intros Ht. unfold matchTriangle. rewrite Ht. reflexivity.
Qed.

(** The three sides of a triangle that is not degenerate have three
    different keys. *)
Lemma sides_keys_NoDup (vertices : list float) (t : triangle) :
  degenerate vertices t = false →
  NoDup ((λ s : edge, (hashOf vertices s.1, hashOf vertices s.2)) <$> sides t).
Proof.
  destruct t as [[ia ib] ic]. intros (H01 & H12 & H20)%degenerate_false. simpl.
  apply NoDup_cons. split.
  - rewrite !elem_of_cons, elem_of_nil.
    intros [[H0 H1]%pair_equal_spec|[[H0 H1]%pair_equal_spec|[]]]; simpl in *;
      congruence.
  - apply NoDup_cons. split; [|apply NoDup_singleton].
    rewrite elem_of_cons, elem_of_nil.
    intros [[H0 H1]%pair_equal_spec|[]]; simpl in *; congruence.
Qed.

Lemma foldSides_inv (I : matcher_state → Prop) (vertices : list float)
    (thresholdDot : float) (t : triangle) (l : list edge) (st : matcher_state) :
  (∀ st e, e ∈ sides t → I st → I (matchSide vertices thresholdDot t st e)) →
  Forall (λ e, e ∈ sides t) l → I st →
  I (foldl (matchSide vertices thresholdDot t) st l).
Proof.
  intros Hstep Hl. revert st.
  induction Hl as [|e l He _ IH]; intros st Hst; simpl; [done|].
  by apply IH, Hstep.
Qed.

Lemma matchSide_scan (vertices : list float) (thresholdDot : float)
    (scanned : list triangle) (t : triangle) (st : matcher_state) (e : edge) :
  degenerate vertices t = false → e ∈ sides t →
  scan_ok vertices scanned (Some t) st →
  scan_ok vertices scanned (Some t) (matchSide vertices thresholdDot t st e).
Proof. destruct e as [i0 i1]. intros Ht He Hst. by apply matchEdge_scan. Qed.

Lemma matchSide_normal (vertices : list float) (thresholdDot : float)
    (scanned : list triangle) (t : triangle) (st : matcher_state) (e : edge) :
  e ∈ sides t →
  normal_ok vertices scanned (Some t) st.1 →
  normal_ok vertices scanned (Some t) (matchSide vertices thresholdDot t st e).1.
Proof.
  destruct st as [edgeData l], e as [i0 i1]. simpl. intros He Hnormal.
  unfold matchSide, matchEdge. cbn [fst snd].
  assert (normal_ok vertices scanned (Some t)
            (<[(hashOf vertices i0, hashOf vertices i1) :=
                 Some (mkEdgeData i0 i1 (Vector3.clone (faceNormal vertices t)))]>
               edgeData)) as Hstore.
  { intros key d. rewrite lookup_insert. case_decide; [|apply Hnormal].
    intros [= <-]. exists t. simpl. split; [by right|]. split; [done|apply clone_id]. }
  destruct (edgeData !! (hashOf vertices i1, hashOf vertices i0)) as [[sibling|]|].
  - simpl. intros key d. rewrite lookup_insert. case_decide; [discriminate|apply Hnormal].
  - by destruct (edgeData !! (hashOf vertices i0, hashOf vertices i1)).
  - by destruct (edgeData !! (hashOf vertices i0, hashOf vertices i1)).
Qed.

Lemma matchTriangle_normal (vertices : list float) (thresholdDot : float)
    (scanned : list triangle) (t : triangle) (st : matcher_state) :
  normal_ok vertices scanned None st.1 →
  normal_ok vertices (scanned ++ [t]) None (matchTriangle vertices thresholdDot st t).1.
Proof.
  intros Hnormal.
  assert (∀ edgeData, normal_ok vertices scanned (Some t) edgeData →
                      normal_ok vertices (scanned ++ [t]) None edgeData) as Hleave.
  { intros edgeData Hin key d Hd.
    destruct (Hin _ _ Hd) as (t' & [Hscanned|[= Hcurrent]] & Hside & Hn);
      exists t'; (split; [left|done]); apply elem_of_app; [by left|right].
    by apply list_elem_of_singleton. }
  assert (normal_ok vertices scanned (Some t) st.1) as Henter.
  { intros key d Hd. destruct (Hnormal _ _ Hd) as (t' & [Hscanned|[=]] & Hside & Hn).
    exists t'. split; [by left|done]. }
  apply Hleave. destruct (degenerate vertices t) eqn:Ht.
  - destruct t as [[ia ib] ic]. by rewrite matchTriangle_degenerate.
  - rewrite matchTriangle_sides by done.
    apply (foldSides_inv (λ st, normal_ok vertices scanned (Some t) st.1));
      [|by apply Forall_forall|done].
    intros st' e He. by apply matchSide_normal.
Qed.

Lemma matchAll_normal (vertices : list float) (thresholdDot : float)
    (scanned tris : list triangle) (st : matcher_state) :
  normal_ok vertices scanned None st.1 →
  normal_ok vertices (scanned ++ tris) None (matchAll vertices thresholdDot tris st).1.
Proof.
  unfold matchAll. revert scanned st.
  induction tris as [|t tris IH]; intros scanned st Hst; simpl.
  - by rewrite app_nil_r.
  - replace (scanned ++ t :: tris) with ((scanned ++ [t]) ++ tris)
      by (by rewrite <- (assoc_L (++))).
    by apply IH, matchTriangle_normal.
Qed.

Lemma matchAll_consumed (vertices : list float) (thresholdDot : float)
    (scanned tris : list triangle) (st : matcher_state) :
  scan_ok vertices scanned None st → consumed_ok vertices st →
  consumed_ok vertices (matchAll vertices thresholdDot tris st).
Proof.
  unfold matchAll. revert scanned st.
  induction tris as [|t tris IH]; intros scanned st Hst Honce; simpl; [done|].
  apply (IH (scanned ++ [t])); [by apply matchTriangle_scan|].
  by apply (matchTriangle_once vertices thresholdDot scanned t st).
Qed.

(** The side whose reversed key is stored and not consumed: the key is
    consumed, and the pair is appended exactly when the dot product of the
    two normals is greater than the threshold dot. *)
Lemma matchSide_found (vertices : list float) (thresholdDot : float) (t : triangle)
    (st : matcher_state) (e : edge) (sibling : EdgeData) :
  st.1 !! (hashOf vertices e.2, hashOf vertices e.1) = Some (Some sibling) →
  matchSide vertices thresholdDot t st e
    = (<[(hashOf vertices e.2, hashOf vertices e.1) := None]> st.1,
       if (thresholdDot <? Vector3.dot (faceNormal vertices t) (normal sibling))%float
       then st.2 ++ [((index0 sibling, index1 sibling), e)]
       else st.2).
Proof.
  destruct st as [edgeData l], e as [i0 i1]. simpl. intros Hsibling.
  unfold matchSide, matchEdge. cbn [fst snd]. by rewrite Hsibling.
Qed.

(** A side with another reversed key leaves a stored edge as it is, and
    appends no pair whose second edge is another side. *)
Lemma matchSide_live (vertices : list float) (thresholdDot : float) (t : triangle)
    (st : matcher_state) (e : edge) (key : hash * hash) (d : EdgeData) :
  st.1 !! key = Some (Some d) →
  (hashOf vertices e.2, hashOf vertices e.1) ≠ key →
  (matchSide vertices thresholdDot t st e).1 !! key = Some (Some d)
  ∧ ∀ p : edge_pair, p.2 ≠ e →
      (p ∈ (matchSide vertices thresholdDot t st e).2 ↔ p ∈ st.2).
Proof.
  destruct st as [edgeData l], e as [i0 i1]. simpl. intros Hd Hother.
  unfold matchSide, matchEdge. cbn [fst snd].
  destruct (edgeData !! (hashOf vertices i1, hashOf vertices i0)) as [[sibling|]|].
  - simpl. split; [by rewrite lookup_insert_ne|].
    intros p Hp. destruct (_ <? _)%float; [|done].
    rewrite elem_of_app, list_elem_of_singleton. split; [|by left].
    intros [Hin| ->]; [done|]. by destruct Hp.
  - destruct (edgeData !! (hashOf vertices i0, hashOf vertices i1)) eqn:Hown;
      simpl; [done|]. split; [|done].
    rewrite lookup_insert_ne; [done|]. intros <-. by rewrite Hown in Hd.
  - destruct (edgeData !! (hashOf vertices i0, hashOf vertices i1)) eqn:Hown;
      simpl; [done|]. split; [|done].
    rewrite lookup_insert_ne; [done|]. intros <-. by rewrite Hown in Hd.
Qed.

(** A consumed key stays consumed, and no pair with that key is appended
    any more. *)
Lemma matchSide_null (vertices : list float) (thresholdDot : float)
    (scanned : list triangle) (current : option triangle) (t : triangle)
    (st : matcher_state) (e : edge) (key : hash * hash) :
  stored_ok vertices scanned current st.1 →
  st.1 !! key = Some None →
  (matchSide vertices thresholdDot t st e).1 !! key = Some None
  ∧ ∀ p, pairKey vertices p = key →
      (p ∈ (matchSide vertices thresholdDot t st e).2 ↔ p ∈ st.2).
Proof.
  destruct st as [edgeData l], e as [i0 i1]. simpl. intros Hstored Hnull.
  unfold matchSide, matchEdge. cbn [fst snd].
  destruct (edgeData !! (hashOf vertices i1, hashOf vertices i0))
    as [[sibling|]|] eqn:Hsibling.
  - simpl. split.
    + rewrite lookup_insert. by case_decide.
    + intros p Hp. destruct (_ <? _)%float; [|done].
      rewrite elem_of_app, list_elem_of_singleton. split; [|by left].
      intros [Hin| ->]; [done|].
      destruct (Hstored _ _ Hsibling) as [Hkey _].
      unfold pairKey in Hp. simpl in Hp. rewrite <- Hkey in Hp. subst key.
      rewrite Hsibling in Hnull. discriminate.
  - destruct (edgeData !! (hashOf vertices i0, hashOf vertices i1)) eqn:Hown;
      simpl; [done|]. split; [|done].
    rewrite lookup_insert_ne; [done|]. intros <-. by rewrite Hown in Hnull.
  - destruct (edgeData !! (hashOf vertices i0, hashOf vertices i1)) eqn:Hown;
      simpl; [done|]. split; [|done].
    rewrite lookup_insert_ne; [done|]. intros <-. by rewrite Hown in Hnull.
Qed.

Lemma foldSides_live (vertices : list float) (thresholdDot : float) (t : triangle)
    (l : list edge) (st : matcher_state) (e : edge) (key : hash * hash) (d : EdgeData) :
  Forall (λ s, (hashOf vertices s.2, hashOf vertices s.1) ≠ key ∧ s ≠ e) l →
  st.1 !! key = Some (Some d) →
  (foldl (matchSide vertices thresholdDot t) st l).1 !! key = Some (Some d)
  ∧ ∀ p : edge_pair, p.2 = e →
      (p ∈ (foldl (matchSide vertices thresholdDot t) st l).2 ↔ p ∈ st.2).
Proof.
  intros Hl. revert st.
  induction Hl as [|s l [Hkey Hs] _ IH]; intros st Hd; simpl; [done|].
  destruct (matchSide_live vertices thresholdDot t st s key d Hd Hkey) as [Hd' Hsame].
  destruct (IH _ Hd') as [Hd'' Hsame']. split; [done|].
  intros p Hp. rewrite Hsame' by done. apply Hsame. by rewrite Hp.
Qed.

Lemma foldSides_null (vertices : list float) (thresholdDot : float)
    (scanned : list triangle) (t : triangle) (l : list edge) (st : matcher_state)
    (key : hash * hash) :
  degenerate vertices t = false →
  Forall (λ s, s ∈ sides t) l →
  scan_ok vertices scanned (Some t) st →
  st.1 !! key = Some None →
  (foldl (matchSide vertices thresholdDot t) st l).1 !! key = Some None
  ∧ ∀ p, pairKey vertices p = key →
      (p ∈ (foldl (matchSide vertices thresholdDot t) st l).2 ↔ p ∈ st.2).
Proof.
  intros Ht Hl. revert st.
  induction Hl as [|s l Hs _ IH]; intros st Hst Hnull; simpl; [done|].
  destruct (matchSide_null vertices thresholdDot scanned (Some t) t st s key
              (proj1 Hst) Hnull) as [Hnull' Hsame].
  destruct (IH _ (matchSide_scan vertices thresholdDot scanned t st s Ht Hs Hst) Hnull')
    as [Hnull'' Hsame'].
  split; [done|]. intros p Hp. by rewrite Hsame', Hsame.
Qed.

Lemma matchTriangle_null (vertices : list float) (thresholdDot : float)
    (scanned : list triangle) (t : triangle) (st : matcher_state) (key : hash * hash) :
  scan_ok vertices scanned None st →
  st.1 !! key = Some None →
  (matchTriangle vertices thresholdDot st t).1 !! key = Some None
  ∧ ∀ p, pairKey vertices p = key →
      (p ∈ (matchTriangle vertices thresholdDot st t).2 ↔ p ∈ st.2).
Proof.
  intros Hst%(scan_ok_enter _ _ t) Hnull. destruct (degenerate vertices t) eqn:Ht.
  - destruct t as [[ia ib] ic]. by rewrite matchTriangle_degenerate.
  - rewrite matchTriangle_sides by done.
    by apply (foldSides_null vertices thresholdDot scanned); [|apply Forall_forall|..].
Qed.

Lemma matchAll_null (vertices : list float) (thresholdDot : float)
    (scanned tris : list triangle) (st : matcher_state) (key : hash * hash) :
  scan_ok vertices scanned None st →
  st.1 !! key = Some None →
  ∀ p, pairKey vertices p = key →
    (p ∈ (matchAll vertices thresholdDot tris st).2 ↔ p ∈ st.2).
Proof.
  unfold matchAll. revert scanned st.
  induction tris as [|t tris IH]; intros scanned st Hst Hnull p Hp; simpl; [done|].
  destruct (matchTriangle_null vertices thresholdDot scanned t st key Hst Hnull)
    as [Hnull' Hsame].
  rewrite (IH (scanned ++ [t])); [by apply Hsame|by apply matchTriangle_scan|done|done].
Qed.

(** C7, as the code has it — The scan reaches a triangle that is not
    degenerate, and the reversed key of one of its sides is in the edge
    table and not yet consumed.  The stored edge is a side of an earlier
    triangle and carries that triangle's face normal.  The pair (stored
    edge, current side) is among the pairs [computeEdgesToMerge] returns
    exactly when the dot product of the two face normals is strictly
    greater than [Math.cos(DEG2RAD * thresholdAngle)], that is when the
    angle between the faces is strictly below the threshold; when the dot
    product equals that cosine the pair is not emitted.  Whatever the test
    gives, the reversed key is consumed once the triangle is done. *)
Theorem sibling_pair_iff_strictly_above (cos_libm : float → float) (vertices : list float)
    (before after : list nat) (a b c : nat) (thresholdAngle : float)
    (e : edge) (sibling : EdgeData) :
  length before `mod` 3 = 0 →
  degenerate vertices (Idx a, Idx b, Idx c) = false →
  e ∈ sides (Idx a, Idx b, Idx c) →
  (matchAll vertices (thresholdDotOf cos_libm thresholdAngle) (triangles before) (∅, [])).1
    !! (hashOf vertices e.2, hashOf vertices e.1) = Some (Some sibling) →
  (∃ k t, triangles before !! k = Some t
          ∧ (index0 sibling, index1 sibling) ∈ sides t
          ∧ normal sibling = faceNormal vertices t)
  ∧ (((index0 sibling, index1 sibling), e)
       ∈ computeEdgesToMerge cos_libm vertices (before ++ [a; b; c] ++ after) thresholdAngle
     ↔ (thresholdDotOf cos_libm thresholdAngle
          <? Vector3.dot (faceNormal vertices (Idx a, Idx b, Idx c))
                         (normal sibling))%float = true)
  ∧ ((Vector3.dot (faceNormal vertices (Idx a, Idx b, Idx c)) (normal sibling)
        =? thresholdDotOf cos_libm thresholdAngle)%float = true →
     ((index0 sibling, index1 sibling), e)
       ∉ computeEdgesToMerge cos_libm vertices (before ++ [a; b; c] ++ after)
                             thresholdAngle)
  ∧ (matchAll vertices (thresholdDotOf cos_libm thresholdAngle)
              (triangles (before ++ [a; b; c])) (∅, [])).1
      !! (hashOf vertices e.2, hashOf vertices e.1) = Some None.
Proof.
  intros Hlen Ht He.
  set (td := thresholdDotOf cos_libm thresholdAngle).
  set (t := (Idx a, Idx b, Idx c)) in *.
  set (key := (hashOf vertices e.2, hashOf vertices e.1)).
  set (p := ((index0 sibling, index1 sibling), e)).
  set (st0 := matchAll vertices td (triangles before) (∅, [])).
  intros Hsibling.
  (* the state in which the scan reaches the triangle *)
  assert (scan_ok vertices (triangles before) None st0) as Hscan.
  { apply (matchAll_scan vertices td []). split; [|constructor].
    intros k d. simpl. by rewrite lookup_empty. }
  assert (consumed_ok vertices st0) as [_ Hconsumed].
  { apply (matchAll_consumed vertices td []).
    - split; [|constructor]. intros k d. simpl. by rewrite lookup_empty.
    - split; [constructor|]. simpl. intros q Hq. by apply elem_of_nil in Hq. }
  assert (normal_ok vertices (triangles before) None st0.1) as Hnormal.
  { apply (matchAll_normal vertices td []). intros k d. simpl. by rewrite lookup_empty. }
  assert (pairKey vertices p = key) as Hp.
  { destruct (proj1 Hscan _ _ Hsibling) as [Hkey _]. by rewrite Hkey. }
  assert (p ∉ st0.2) as Hfresh.
  { intros Hin. specialize (Hconsumed _ Hin). rewrite Hp, Hsibling in Hconsumed.
    discriminate. }
  (* the sides of the triangle before and after the side [e] *)
  destruct (list_elem_of_split _ _ He) as (l1 & l2 & Hsides).
  pose proof (sides_keys_NoDup vertices t Ht) as Hkeys.
  rewrite Hsides, fmap_app, fmap_cons in Hkeys.
  apply NoDup_app in Hkeys as (_ & Hl1 & [Hl2 _]%NoDup_cons).
  assert (Forall (λ s, s ∈ sides t) l1 ∧ Forall (λ s, s ∈ sides t) l2) as [Hin1 Hin2].
  { split; apply Forall_forall; intros s Hs; rewrite Hsides, elem_of_app, elem_of_cons;
      auto. }
  assert (Forall (λ s : edge, (hashOf vertices s.2, hashOf vertices s.1) ≠ key ∧ s ≠ e) l1)
    as Hother.
  { apply Forall_forall. intros s Hs.
    assert ((hashOf vertices s.1, hashOf vertices s.2)
            ≠ (hashOf vertices e.1, hashOf vertices e.2)) as Hne.
    { intros Heq. apply (Hl1 (hashOf vertices s.1, hashOf vertices s.2)).
      - apply list_elem_of_fmap. by exists s.
      - rewrite Heq. by left. }
    split; [|by intros ->]. unfold key.
    intros [H2 H1]%pair_equal_spec. apply Hne. by rewrite H1, H2. }
  (* through the triangle *)
  set (st1 := foldl (matchSide vertices td t) st0 l1).
  destruct (foldSides_live vertices td t l1 st0 e key sibling Hother Hsibling)
    as [Hlive Hsame1]. fold st1 in Hlive, Hsame1.
  assert (scan_ok vertices (triangles before) (Some t) st1) as Hscan1.
  { apply (foldSides_inv (scan_ok vertices (triangles before) (Some t))); [|done|].
    - intros st s Hs. by apply matchSide_scan.
    - by apply scan_ok_enter. }
  pose proof (matchSide_found vertices td t st1 e sibling Hlive) as Hfound.
  pose proof (matchSide_scan vertices td (triangles before) t st1 e Ht He Hscan1) as Hscan2.
  set (st2 := matchSide vertices td t st1 e) in *.
  assert (st2.1 !! key = Some None) as Hnull2.
  { rewrite Hfound. simpl. apply lookup_insert_eq. }
  assert (p ∈ st2.2
          ↔ (td <? Vector3.dot (faceNormal vertices t) (normal sibling))%float = true)
    as Hemit.
  { rewrite Hfound. simpl. destruct (_ <? _)%float.
    - split; [done|]. intros _. apply elem_of_app. right. by apply list_elem_of_singleton.
    - rewrite Hsame1 by done. split; [done|discriminate]. }
  destruct (foldSides_null vertices td (triangles before) t l2 st2 key Ht Hin2 Hscan2 Hnull2)
    as [Hnull3 Hsame3].
  assert (matchTriangle vertices td st0 t = foldl (matchSide vertices td t) st2 l2) as Htri.
  { rewrite matchTriangle_sides by done. rewrite Hsides, foldl_app. reflexivity. }
  assert (matchAll vertices td (triangles (before ++ [a; b; c])) (∅, [])
          = matchTriangle vertices td st0 t) as Hreached.
  { rewrite triangles_app by done. rewrite matchAll_app. reflexivity. }
  assert (p ∈ computeEdgesToMerge cos_libm vertices (before ++ [a; b; c] ++ after)
                                  thresholdAngle
          ↔ (td <? Vector3.dot (faceNormal vertices t) (normal sibling))%float = true)
    as Hiff.
  { unfold computeEdgesToMerge. fold td.
    rewrite (assoc_L (++) before), triangles_app, matchAll_app, Hreached.
    - rewrite (matchAll_null vertices td (triangles before ++ [t]) _ _ key); try done.
      + by rewrite Htri, Hsame3.
      + by apply matchTriangle_scan.
      + by rewrite Htri.
    - rewrite length_app. simpl length.
      by rewrite <- Nat.Div0.add_mod_idemp_l, Hlen. }
  split; [|split; [exact Hiff|split]].
  - destruct (Hnormal _ _ Hsibling) as (t1 & [[k Hk]%list_elem_of_lookup|[=]] & Hside & Hn).
    eauto.
  - intros Hequal Hin. apply Hiff in Hin.
    by rewrite (float_eqb_not_ltb _ _ Hequal) in Hin.
  - by rewrite Hreached, Htri.
Qed.

Lemma sibling_pair_iff_strictly_above_witness :
  ((Idx 1, Idx 2), (Idx 5, Idx 3))
    ∈ computeEdgesToMerge cos_series scenarioA_vertices ([0; 1; 2] ++ [3; 4; 5] ++ []) 1
  ↔ (thresholdDotOf cos_series 1
       <? Vector3.dot (faceNormal scenarioA_vertices (Idx 3, Idx 4, Idx 5))
                      (faceNormal scenarioA_vertices (Idx 0, Idx 1, Idx 2)))%float = true.
Proof.
  exact (proj1 (proj2 (sibling_pair_iff_strictly_above
                         cos_series scenarioA_vertices [0; 1; 2] [] 3 4 5 1 (Idx 5, Idx 3)
                         (mkEdgeData (Idx 1) (Idx 2)
                                     (faceNormal scenarioA_vertices (Idx 0, Idx 1, Idx 2)))
                         eq_refl
                         ltac:(vm_compute; reflexivity)
                         ltac:(vm_compute; do 2 right; left)
                         ltac:(vm_compute; reflexivity)))).
Defined.
